(** * Route assembly and maneuver-override resolution

    A shallow embedding of [include/engine/api/route_api.hpp]
    (class [RouteAPI]: [MakeResponse], [MakeGeometry], [GetAnnotations],
    [MakeRoute]) and the properties of the route document it builds.

    Conventions of the embedding:
    - [std::vector] is a [list]; an iterator is an index into it;
    - indexing a vector out of range, or forming an iterator range
      outside a vector, is undefined behaviour in the source: the functions
      below return [None] there, and [Some] result otherwise;
    - [util::json::Object] (a string-keyed map) is a [gmap string Value];
    - functions and types of headers outside this translation unit are
      fields of the classes [Double], [Foreign], [DataFacade], [Guidance]
      and [JsonFactory];
    - [BOOST_ASSERT] expands to nothing in release builds; the asserted
      conditions are recorded next to the definitions that carry them;
    - the diagnostic text [MakeRoute] writes to [std::cout] is not part of
      the returned document; only the vector accesses of that loop are kept. *)

From Stdlib Require Import NArith ZArith.
From stdpp Require Import gmap strings list fin_maps.

(** ** Numbers of the platform *)

(** [double] and the operations [MakeRoute] applies to it
    ([/], [*], [std::round], [util::json::clamp_float], integer conversion). *)
Class Double := {
  double : Type;
  double_div : double → double → double;
  double_mul : double → double → double;
  double_round : double → double;
  double_ten : double;
  clamp_float : double → double;
  double_of_uint : N → double;
}.

(** ** JSON values ([util/json_container.hpp]) *)

Module json.
Section Value.
Context `{Double}.

#[warnings="-register-all"] Inductive Value :=
    | String (value : string)
    | Number (value : double)
    | Object (values : gmap string Value)
    | Array (values : list Value)
    | True
    | False
    | Null.
End Value.
End json.

(** ** Identifiers and coordinates *)

Definition NodeID := N.
Definition OSMNodeID := N.
Definition DatasourceID := N.

Record Coordinate := { lon : Z; lat : Z }.

#[global] Instance Coordinate_eq_dec : EqDecision Coordinate.
Proof. solve_decision. Defined.

Module SegmentID.
Record t := { id : NodeID; enabled : bool }.
End SegmentID.

(** ** Request parameters ([engine/api/route_parameters.hpp]) *)

Module RouteParameters.

Inductive GeometriesType := Polyline | Polyline6 | GeoJSON.
Inductive OverviewType := Simplified | Full | False_.

#[global] Instance GeometriesType_eq_dec : EqDecision GeometriesType.
Proof. solve_decision. Defined.
#[global] Instance OverviewType_eq_dec : EqDecision OverviewType.
Proof. solve_decision. Defined.

Module AnnotationsType.
    (** Modelled from the spec: the declaration of the enumeration
        [AnnotationsType] is in [route_parameters.hpp], which is not part
        of this translation unit.  It is a bit-flag set over Speed,
        Duration, Distance, Weight, Datasources and Nodes, with a neutral
        value [None] and a value [All] that has every flag set. *)
Definition t := N.
Definition None : t := 0%N.
Definition Duration : t := 1%N.
Definition Nodes : t := 2%N.
Definition Distance : t := 4%N.
Definition Weight : t := 8%N.
Definition Datasources : t := 16%N.
Definition Speed : t := 32%N.
Definition All : t :=
      N.lor Duration (N.lor Nodes (N.lor Distance
        (N.lor Weight (N.lor Datasources Speed)))).

    (** [operator&] on the enumeration: is a flag of [rhs] set in [lhs]. *)
Definition and (lhs rhs : t) : bool := negb (N.land lhs rhs =? 0)%N.
End AnnotationsType.

Record t := {
    geometries : GeometriesType;
    overview : OverviewType;
    steps : bool;
    annotations : bool;
    annotations_type : AnnotationsType.t;
  }.

End RouteParameters.

(** ** Declarations of the guidance and extractor headers *)

(** Enumerations whose enumerators are declared elsewhere, and the parts of
    the structures below that [RouteAPI] hands on without looking at. *)
Class Foreign := {
  TurnType : Type;
  TurnType_Invalid : TurnType;
  DirectionModifier : Type;
  MaxDirectionModifier : DirectionModifier;
  DirectionModifier_eq_dec :: EqDecision DirectionModifier;
  PathData : Type;
  PhantomData : Type;
  ManeuverData : Type;
  StepData : Type;
  GeometryData : Type;
  LegData : Type;
  Route : Type;
}.

Section DataModel.
Context `{Double, Foreign}.

Record PhantomNode := {
    forward_segment_id : SegmentID.t;
    reverse_segment_id : SegmentID.t;
    phantom_data : PhantomData;
  }.

Record PhantomNodes := {
    source_phantom : PhantomNode;
    target_phantom : PhantomNode;
  }.

Record TurnInstruction := {
    type : TurnType;
    direction_modifier : DirectionModifier;
  }.

Record StepManeuver := {
    instruction : TurnInstruction;
    maneuver_data : ManeuverData;
  }.

Record RouteStep := {
    from_id : NodeID;
    geometry_begin : nat;
    geometry_end : nat;
    maneuver : StepManeuver;
    step_data : StepData;
  }.

Record Annotation := {
    distance : double;
    duration : double;
    weight : double;
    datasource : DatasourceID;
  }.

Record LegGeometry := {
    locations : list Coordinate;
    osm_node_ids : list OSMNodeID;
    annotations : list Annotation;
    geometry_data : GeometryData;
  }.

Record RouteLeg := {
    steps : list RouteStep;
    leg_data : LegData;
  }.

Record ManeuverOverride := {
    from_node : NodeID;
    via_node_id : NodeID;
    to_node : NodeID;
    override_type : TurnType;
    direction : DirectionModifier;
  }.

  (** Modelled from the spec: [InternalRouteResult::is_valid] is declared in
      [engine/internal_route_result.hpp], which is not part of this
      translation unit; a raw route has a validity flag. *)
Record InternalRouteResult := {
    unpacked_path_segments : list (list PathData);
    segment_end_coordinates : list PhantomNodes;
    source_traversed_in_reverse : list bool;
    target_traversed_in_reverse : list bool;
    is_valid : bool;
  }.

Record InternalManyRoutesResult := {
    routes : list InternalRouteResult;
  }.

End DataModel.


(** ** Collaborators of [RouteAPI] *)

(** [engine/datafacade/datafacade_base.hpp]: the queries [RouteAPI] makes. *)
Class DataFacade `{Double, Foreign} := {
  GetOverridesThatStartAt : NodeID → list ManeuverOverride;
  GetCoordinateOfNode : NodeID → Coordinate;
  GetWeightName : string;
}.

(** [engine/guidance/*.hpp]: the assemblers and the post-processing stages.
    The facade they receive in the source is the ambient [DataFacade].
    [trimShortSegments] updates its two arguments in place, so it returns
    both. *)
Class Guidance `{DataFacade} := {
  assembleGeometry :
    list PathData → PhantomNode → PhantomNode → bool → bool → LegGeometry;
  assembleLeg :
    list PathData → LegGeometry → PhantomNode → PhantomNode → bool → bool →
    RouteLeg;
  assembleSteps :
    list PathData → LegGeometry → PhantomNode → PhantomNode → bool → bool →
    list RouteStep;
  trimShortSegments : list RouteStep → LegGeometry → list RouteStep * LegGeometry;
  handleRoundabouts : list RouteStep → list RouteStep;
  collapseTurnInstructions : list RouteStep → list RouteStep;
  anticipateLaneChange : list RouteStep → list RouteStep;
  buildIntersections : list RouteStep → list RouteStep;
  suppressShortNameSegments : list RouteStep → list RouteStep;
  assignRelativeLocations :
    list RouteStep → LegGeometry → PhantomNode → PhantomNode → list RouteStep;
  resyncGeometry : LegGeometry → list RouteStep → LegGeometry;
  assembleRoute : list RouteLeg → Route;
  assembleOverview : list LegGeometry → bool → list Coordinate;
}.

(** [engine/api/json_factory.hpp] and [BaseAPI::MakeWaypoints]. *)
Class JsonFactory `{Double, Foreign} := {
  makePolyline : Z → list Coordinate → json.Value;
  makeGeoJSONGeometry : list Coordinate → json.Value;
  makeRouteLegs :
    list RouteLeg → list json.Value → list (gmap string json.Value) →
    list json.Value;
  makeRoute :
    Route → list json.Value → option json.Value → string →
    gmap string json.Value;
  MakeWaypoints : list PhantomNodes → json.Value;
}.

(** ** Iterator ranges *)

Section Ranges.
Context {A : Type}.

(** The elements of [[first, last)] of a vector, when that is a range of it. *)
Definition slice (l : list A) (first last : nat) : option (list A) :=
  if decide (first ≤ last ∧ last ≤ length l)
  then Some (take (last - first) (drop first l))
  else None.

(** [std::find_if] over a range given by its elements: the offset of the
    first element that satisfies [p], the length of the range when none does
    (the iterator [last]). *)
Fixpoint find_if (p : A → bool) (range : list A) : nat :=
  match range with
  | [] => 0
  | x :: range' => if p x then 0 else S (find_if p range')
  end.

End Ranges.

(** ** The maneuver-override resolver ([MakeRoute], lines 208-294) *)

Section Resolver.
Context `{Double, Foreign}.
Context `{!DataFacade}.

(** What the loops of the resolver do, in order: the body of the outer loop
    is entered for step [i]; the body of the loop over the overrides is
    entered for [o]; the via node of [o] is found in the geometry of step
    [t] ([done] is set). *)
Inductive Event :=
  | StepVisited (i : nat)
  | OverrideVisited (i : nat) (o : ManeuverOverride)
  | ViaMatched (i : nat) (o : ManeuverOverride) (t : nat).

(** The variables the loops read and write: [leg.steps], [leg_geometry],
    [done]; [trace] records the events so far, latest last. *)
Record Resolver := {
  leg_steps : list RouteStep;
  leg_geometry : LegGeometry;
  done : bool;
  trace : list Event;
}.

Definition log (e : Event) (st : Resolver) : Resolver :=
  {| leg_steps := leg_steps st; leg_geometry := leg_geometry st;
     done := done st; trace := trace st ++ [e] |}.

(** [std::min(5l, std::distance(current_step_it, leg.steps.end()))] *)
Definition MAX_MANEUVER_DISTANCE (steps : list RouteStep) (i : nat) : nat :=
  5 `min` (length steps - i).

Definition max_steps_fwd (steps : list RouteStep) (i : nat) : nat :=
  i + MAX_MANEUVER_DISTANCE steps i.

(** The steps of [[current_step_it, max_steps_fwd)]. *)
Definition window (steps : list RouteStep) (i : nat) : list RouteStep :=
  take (MAX_MANEUVER_DISTANCE steps i) (drop i steps).

(** [to_match]: the first step of the window that leaves from [to_node],
    [max_steps_fwd] when there is none. *)
Definition to_match (steps : list RouteStep) (i : nat)
    (maneuver_relation : ManeuverOverride) : nat :=
  i + find_if (λ step, bool_decide (from_id step = to_node maneuver_relation))
        (window steps i).

(** The edge-based node the leg ends on. *)
Definition target_node (phantoms : PhantomNodes) (reversed_target : bool)
    : NodeID :=
  if reversed_target
  then SegmentID.id (reverse_segment_id (target_phantom phantoms))
  else SegmentID.id (forward_segment_id (target_phantom phantoms)).

(** Lines 234-246: [false] where the source says [continue]. *)
Definition to_node_accepted (steps : list RouteStep) (phantoms : PhantomNodes)
    (reversed_target : bool) (i : nat) (maneuver_relation : ManeuverOverride)
    : bool :=
  if decide (to_match steps i maneuver_relation = max_steps_fwd steps i)
  then
    if bool_decide (5 ≤ MAX_MANEUVER_DISTANCE steps i)
       || bool_decide (target_node phantoms reversed_target
                       ≠ to_node maneuver_relation)
    then false
    else true
  else true.

(** Lines 250-263: the loop over [current_step_copy], from step [c] with
    [n] steps left before [max_steps_fwd]; the step whose geometry holds the
    via node, if there is one. *)
Fixpoint via_search (steps : list RouteStep) (geometry : LegGeometry)
    (maneuver_relation : ManeuverOverride) (c n : nat) : option (option nat) :=
  match n with
  | 0 => Some None
  | S n' =>
      step ← steps !! c;
      let via_node_coords :=
        GetCoordinateOfNode (via_node_id maneuver_relation) in
      range ← slice (locations geometry)
                 (geometry_begin step) (geometry_end step);
      let via_match :=
        find_if (λ location, bool_decide (location = via_node_coords)) range in
      if decide (via_match = length range)
      then via_search steps geometry maneuver_relation (S c) n'
      else Some (Some c)
  end.

(** Lines 278-285: the writes to the step after the match. *)
Definition override_instruction (maneuver_relation : ManeuverOverride)
    (step : RouteStep) : RouteStep :=
  let old := instruction (maneuver step) in
  let new := {|
    type := override_type maneuver_relation;
    direction_modifier :=
      if decide (direction maneuver_relation ≠ MaxDirectionModifier)
      then direction maneuver_relation
      else direction_modifier old |} in
  {| from_id := from_id step;
     geometry_begin := geometry_begin step;
     geometry_end := geometry_end step;
     maneuver := {| instruction := new;
                    maneuver_data := maneuver_data (maneuver step) |};
     step_data := step_data step |}.

(** Lines 274-286: [++current_step_copy], then the guarded update. *)
Definition apply_override (maneuver_relation : ManeuverOverride) (t : nat)
    (steps : list RouteStep) : list RouteStep :=
  match steps !! S t with
  | Some step => <[S t := override_instruction maneuver_relation step]> steps
  | None => steps
  end.

(** What one pass through the body of the loop over the overrides comes to. *)
Inductive Verdict :=
  | Skipped
  | NoViaMatch
  | ViaMatch (t : nat).

Definition via_verdict (found : option nat) : Verdict :=
  match found with
  | Some t => ViaMatch t
  | None => NoViaMatch
  end.

Definition check_override (st : Resolver) (phantoms : PhantomNodes)
    (reversed_target : bool) (i : nat) (maneuver_relation : ManeuverOverride)
    : option Verdict :=
  if to_node_accepted (leg_steps st) phantoms reversed_target i
       maneuver_relation
  then
    via_verdict
      <$> via_search (leg_steps st) (leg_geometry st) maneuver_relation i
            (MAX_MANEUVER_DISTANCE (leg_steps st) i)
  else Some Skipped.

(** Lines 223-291: the loop over the overrides that start at step [i].
    Where the via node is matched, line 267 carries
    [BOOST_ASSERT (maneuver_relation.override_type != TurnType::Invalid)],
    that is [override_type maneuver_relation ≠ TurnType_Invalid]. *)
Fixpoint for_overrides (phantoms : PhantomNodes) (reversed_target : bool)
    (i : nat) (overrides : list ManeuverOverride) (st : Resolver)
    : option Resolver :=
  match overrides with
  | [] => Some st
  | maneuver_relation :: overrides' =>
      let st := log (OverrideVisited i maneuver_relation) st in
      verdict ← check_override st phantoms reversed_target i maneuver_relation;
      match verdict with
      | ViaMatch t =>
          Some {| leg_steps := apply_override maneuver_relation t (leg_steps st);
                  leg_geometry := leg_geometry st;
                  done := true;
                  trace := trace st ++ [ViaMatched i maneuver_relation t] |}
      | Skipped | NoViaMatch =>
          for_overrides phantoms reversed_target i overrides' st
      end
  end.

(** Lines 210-294: the loop over the steps, at step [i] with [n] steps left. *)
Fixpoint for_steps (phantoms : PhantomNodes) (reversed_target : bool)
    (n i : nat) (st : Resolver) : option Resolver :=
  match n with
  | 0 => Some st
  | S n' =>
      current_step ← leg_steps st !! i;
      let st := log (StepVisited i) st in
      let overrides := GetOverridesThatStartAt (from_id current_step) in
      match overrides with
      | [] => for_steps phantoms reversed_target n' (S i) st
      | _ =>
          st ← for_overrides phantoms reversed_target i overrides st;
          if done st then Some st
          else for_steps phantoms reversed_target n' (S i) st
      end
  end.

(** The resolver on the steps and the geometry of one leg. *)
Definition apply_manual_overrides (phantoms : PhantomNodes)
    (reversed_target : bool) (steps : list RouteStep) (geometry : LegGeometry)
    : option Resolver :=
  for_steps phantoms reversed_target (length steps) 0
    {| leg_steps := steps; leg_geometry := geometry;
       done := false; trace := [] |}.

End Resolver.

(** ** [class RouteAPI] *)

Section RouteAPI.
Context `{Double, Foreign}.
Context `{!DataFacade, !Guidance, !JsonFactory}.

(** The member [parameters] of the class. *)
Variable parameters : RouteParameters.t.

(** [MakeGeometry (begin, end)], lines 70-85; the last case carries
    [BOOST_ASSERT (parameters.geometries == GeoJSON)]. *)
Definition MakeGeometry (range : list Coordinate) : json.Value :=
  if decide (RouteParameters.geometries parameters = RouteParameters.Polyline)
  then makePolyline 100000 range
  else if decide (RouteParameters.geometries parameters
                  = RouteParameters.Polyline6)
  then makePolyline 1000000 range
  else makeGeoJSONGeometry range.

(** [GetAnnotations (leg, Get)], lines 87-98. *)
Definition GetAnnotations (leg : LegGeometry) (Get : Annotation → json.Value)
    : json.Value :=
  json.Array (Get <$> annotations leg).

Definition with_steps (leg : RouteLeg) (new_steps : list RouteStep) : RouteLeg :=
  {| steps := new_steps; leg_data := leg_data leg |}.

(** Lines 196-206: the post-processing of the steps of one leg, statement
    by statement, on the variables [steps], [leg] and [leg_geometry]. *)
Definition post_process (phantoms : PhantomNodes) (leg : RouteLeg)
    (steps0 : list RouteStep) (leg_geometry0 : LegGeometry)
    : RouteLeg * LegGeometry :=
  let '(steps1, leg_geometry1) := trimShortSegments steps0 leg_geometry0 in
  let leg := with_steps leg (handleRoundabouts steps1) in
  let leg := with_steps leg (collapseTurnInstructions (steps leg)) in
  let leg := with_steps leg (anticipateLaneChange (steps leg)) in
  let leg := with_steps leg (buildIntersections (steps leg)) in
  let leg := with_steps leg (suppressShortNameSegments (steps leg)) in
  let leg :=
    with_steps leg
      (assignRelativeLocations (steps leg) leg_geometry1
         (source_phantom phantoms) (target_phantom phantoms)) in
  let leg_geometry2 := resyncGeometry leg_geometry1 (steps leg) in
  (leg, leg_geometry2).

(** Lines 134-298: the body of the loop over the legs; the leg and its
    geometry as they are pushed to [legs] and [leg_geometries], with the
    record of what the override resolver did. *)
Definition make_leg (phantoms : PhantomNodes) (path_data : list PathData)
    (reversed_source reversed_target : bool)
    : option (RouteLeg * LegGeometry * list Event) :=
  let geometry0 :=
    assembleGeometry path_data (source_phantom phantoms)
      (target_phantom phantoms) reversed_source reversed_target in
  let leg0 :=
    assembleLeg path_data geometry0 (source_phantom phantoms)
      (target_phantom phantoms) reversed_target
      (RouteParameters.steps parameters) in
  if RouteParameters.steps parameters
  then
    let steps0 :=
      assembleSteps path_data geometry0 (source_phantom phantoms)
        (target_phantom phantoms) reversed_source reversed_target in
    let '(leg1, geometry1) := post_process phantoms leg0 steps0 geometry0 in
    st ← apply_manual_overrides phantoms reversed_target (steps leg1) geometry1;
    Some (with_steps leg1 (leg_steps st), leg_geometry st, trace st)
  else Some (leg0, geometry0, []).

(** Lines 105-125: the vector accesses of the diagnostic loop. *)
Definition diagnostic_accesses (segment_end_coordinates : list PhantomNodes)
    (unpacked_path_segments : list (list PathData))
    (source_traversed_in_reverse target_traversed_in_reverse : list bool)
    : option () :=
  match unpacked_path_segments with
  | [] => Some ()
  | _ =>
      _ ← source_traversed_in_reverse !! 0;
      _ ← segment_end_coordinates !! 0;
      _ ← target_traversed_in_reverse !! 0;
      Some ()
  end.

(** Lines 132-299: the loop over the legs, at leg [idx] with [n] legs left. *)
Fixpoint for_legs (segment_end_coordinates : list PhantomNodes)
    (unpacked_path_segments : list (list PathData))
    (source_traversed_in_reverse target_traversed_in_reverse : list bool)
    (n idx : nat) (legs : list RouteLeg) (leg_geometries : list LegGeometry)
    : option (list RouteLeg * list LegGeometry) :=
  match n with
  | 0 => Some (legs, leg_geometries)
  | S n' =>
      phantoms ← segment_end_coordinates !! idx;
      path_data ← unpacked_path_segments !! idx;
      reversed_source ← source_traversed_in_reverse !! idx;
      reversed_target ← target_traversed_in_reverse !! idx;
      '(leg, leg_geometry, _) ←
        make_leg phantoms path_data reversed_source reversed_target;
      for_legs segment_end_coordinates unpacked_path_segments
        source_traversed_in_reverse target_traversed_in_reverse
        n' (S idx) (legs ++ [leg]) (leg_geometries ++ [leg_geometry])
  end.

(** Lines 302-312. *)
Definition make_overview (leg_geometries : list LegGeometry)
    : option json.Value :=
  if decide (RouteParameters.overview parameters ≠ RouteParameters.False_)
  then
    let use_simplification :=
      bool_decide (RouteParameters.overview parameters
                   = RouteParameters.Simplified) in
    Some (MakeGeometry (assembleOverview leg_geometries use_simplification))
  else None.

(** Lines 325-344: the geometry of one step. *)
Definition step_geometry (leg_geometry : LegGeometry) (step : RouteStep)
    : option json.Value :=
  range ← slice (locations leg_geometry)
             (geometry_begin step) (geometry_end step);
  Some (if decide (RouteParameters.geometries parameters
                   = RouteParameters.Polyline)
        then makePolyline 100000 range
        else if decide (RouteParameters.geometries parameters
                        = RouteParameters.Polyline6)
        then makePolyline 1000000 range
        else makeGeoJSONGeometry range).

(** Lines 314-345: the loop over the legs that fills [step_geometries]. *)
Fixpoint make_step_geometries (legs : list RouteLeg)
    (leg_geometries : list LegGeometry) (step_geometries : list json.Value)
    : option (list json.Value) :=
  match legs, leg_geometries with
  | leg :: legs', leg_geometry :: leg_geometries' =>
      encoded ← mapM (step_geometry leg_geometry) (steps leg);
      make_step_geometries legs' leg_geometries' (step_geometries ++ encoded)
  | [], _ => Some step_geometries
  | _ :: _, [] => None
  end.

(** Lines 351-356. *)
Definition requested_annotations : RouteParameters.AnnotationsType.t :=
  if RouteParameters.annotations parameters
     && bool_decide (RouteParameters.annotations_type parameters
                     = RouteParameters.AnnotationsType.None)
  then RouteParameters.AnnotationsType.All
  else RouteParameters.annotations_type parameters.

(** Line 370. *)
Definition speed_of (anno : Annotation) : double :=
  let val :=
    double_div
      (double_round
         (double_mul (double_div (distance anno) (duration anno)) double_ten))
      double_ten in
  clamp_float val.

(** Lines 363-414: the annotation object of one leg. *)
Definition make_annotation (leg_geometry : LegGeometry)
    : gmap string json.Value :=
  let flag := RouteParameters.AnnotationsType.and in
  let annotation : gmap string json.Value := ∅ in
  let annotation :=
    if flag (RouteParameters.annotations_type parameters)
         RouteParameters.AnnotationsType.Speed
    then <["speed" :=
            GetAnnotations leg_geometry (λ anno, json.Number (speed_of anno))]>
           annotation
    else annotation in
  let annotation :=
    if flag requested_annotations RouteParameters.AnnotationsType.Duration
    then <["duration" :=
            GetAnnotations leg_geometry (λ anno, json.Number (duration anno))]>
           annotation
    else annotation in
  let annotation :=
    if flag requested_annotations RouteParameters.AnnotationsType.Distance
    then <["distance" :=
            GetAnnotations leg_geometry (λ anno, json.Number (distance anno))]>
           annotation
    else annotation in
  let annotation :=
    if flag requested_annotations RouteParameters.AnnotationsType.Weight
    then <["weight" :=
            GetAnnotations leg_geometry (λ anno, json.Number (weight anno))]>
           annotation
    else annotation in
  let annotation :=
    if flag requested_annotations RouteParameters.AnnotationsType.Datasources
    then <["datasources" :=
            GetAnnotations leg_geometry
              (λ anno, json.Number (double_of_uint (datasource anno)))]>
           annotation
    else annotation in
  let annotation :=
    if flag requested_annotations RouteParameters.AnnotationsType.Nodes
    then <["nodes" :=
            json.Array ((λ node_id, json.Number (double_of_uint node_id))
                        <$> osm_node_ids leg_geometry)]>
           annotation
    else annotation in
  annotation.

(** Lines 347-416: the vector [annotations]. *)
Definition make_annotations (leg_geometries : list LegGeometry)
    : list (gmap string json.Value) :=
  if decide (requested_annotations ≠ RouteParameters.AnnotationsType.None)
  then make_annotation <$> leg_geometries
  else [].

(** [MakeRoute], lines 100-426. *)
Definition MakeRoute (segment_end_coordinates : list PhantomNodes)
    (unpacked_path_segments : list (list PathData))
    (source_traversed_in_reverse target_traversed_in_reverse : list bool)
    : option (gmap string json.Value) :=
  _ ← diagnostic_accesses segment_end_coordinates unpacked_path_segments
         source_traversed_in_reverse target_traversed_in_reverse;
  let number_of_legs := length segment_end_coordinates in
  '(legs, leg_geometries) ←
    for_legs segment_end_coordinates unpacked_path_segments
      source_traversed_in_reverse target_traversed_in_reverse
      number_of_legs 0 [] [];
  let route := assembleRoute legs in
  let json_overview := make_overview leg_geometries in
  step_geometries ← make_step_geometries legs leg_geometries [];
  let annotations := make_annotations leg_geometries in
  Some (makeRoute route (makeRouteLegs legs step_geometries annotations)
          json_overview GetWeightName).

(** Lines 52-61: the loop over the raw routes that fills [jsRoutes]. *)
Fixpoint for_routes (raw : list InternalRouteResult)
    (jsRoutes : list json.Value) : option (list json.Value) :=
  match raw with
  | [] => Some jsRoutes
  | route :: raw' =>
      if negb (is_valid route)
      then for_routes raw' jsRoutes
      else
        made ← MakeRoute (segment_end_coordinates route)
                  (unpacked_path_segments route)
                  (source_traversed_in_reverse route)
                  (target_traversed_in_reverse route);
        for_routes raw' (jsRoutes ++ [json.Object made])
  end.

(** [MakeResponse], lines 45-67.  [BOOST_ASSERT (!raw_routes.routes.empty ())]
    is the condition under which [raw_routes.routes[0]] exists. *)
Definition MakeResponse (raw_routes : InternalManyRoutesResult)
    (response : gmap string json.Value) : option (gmap string json.Value) :=
  jsRoutes ← for_routes (routes raw_routes) [];
  first ← routes raw_routes !! 0;
  let response :=
    <["waypoints" := MakeWaypoints (segment_end_coordinates first)]> response in
  let response := <["routes" := json.Array jsRoutes]> response in
  let response := <["code" := json.String "Ok"]> response in
  Some response.

End RouteAPI.

(** ** A small network and request, for the examples

    Integers stand in for [double]; turn types and direction modifiers are
    their numeric codes; a path datum is the edge-based node it starts from
    and every post-processing stage keeps the steps it is given. *)

Module Example.

#[export] Instance Zdouble : Double := {|
  double := Z;
  double_div := Z.div;
  double_mul := Z.mul;
  double_round := λ x, x;
  double_ten := 10%Z;
  clamp_float := λ x, x;
  double_of_uint := Z.of_N;
|}.

#[export] Instance codes : Foreign := {|
  TurnType := N;
  TurnType_Invalid := 0%N;
  DirectionModifier := N;
  MaxDirectionModifier := 8%N;
  PathData := N;
  PhantomData := unit;
  ManeuverData := unit;
  StepData := unit;
  GeometryData := unit;
  LegData := unit;
  Route := nat;
|}.

(** The coordinate of node [n]. *)
Definition coordinate_of (n : NodeID) : Coordinate :=
  {| lon := Z.of_N n; lat := 0%Z |}.

(** Two overrides start at node 10 and one at node 13. *)
Definition to_15 : ManeuverOverride :=
  {| from_node := 10%N; via_node_id := 100%N; to_node := 15%N;
     override_type := 7%N; direction := 8%N |}.
Definition to_12 : ManeuverOverride :=
  {| from_node := 10%N; via_node_id := 102%N; to_node := 12%N;
     override_type := 9%N; direction := 2%N |}.
Definition to_14 : ManeuverOverride :=
  {| from_node := 13%N; via_node_id := 103%N; to_node := 14%N;
     override_type := 5%N; direction := 8%N |}.

#[export] Instance facade : DataFacade := {|
  GetOverridesThatStartAt := λ n,
    if (n =? 10)%N then [to_15; to_12]
    else if (n =? 13)%N then [to_14]
    else [];
  GetCoordinateOfNode := coordinate_of;
  GetWeightName := "duration";
|}.

(** The step that leaves from node [10 + k] and covers the locations
    [k] and [k + 1] of the leg. *)
Definition step_at (k : nat) : RouteStep :=
  {| from_id := N.of_nat (10 + k);
     geometry_begin := k;
     geometry_end := k + 2;
     maneuver := {| instruction := {| type := 1%N; direction_modifier := 4%N |};
                    maneuver_data := () |};
     step_data := () |}.

Definition steps_of (n : nat) : list RouteStep := step_at <$> seq 0 n.

(** Locations [100, 101, ..., 100 + n] of a leg of [n] steps. *)
Definition geometry_of (n : nat) : LegGeometry :=
  {| locations := (λ k, coordinate_of (N.of_nat (100 + k))) <$> seq 0 (S n);
     osm_node_ids := (λ k, N.of_nat (100 + k)) <$> seq 0 (S n);
     annotations :=
       (λ k, {| distance := 100%Z; duration := Z.of_nat (S k); weight := 1%Z;
                datasource := 0%N |}) <$> seq 0 n;
     geometry_data := () |}.

Definition phantom (forward reverse : NodeID) : PhantomNode :=
  {| forward_segment_id := {| SegmentID.id := forward; SegmentID.enabled := true |};
     reverse_segment_id := {| SegmentID.id := reverse; SegmentID.enabled := true |};
     phantom_data := () |}.

Definition phantoms : PhantomNodes :=
  {| source_phantom := phantom 10%N 20%N; target_phantom := phantom 30%N 40%N |}.

#[export] Instance guidance : Guidance := {|
  assembleGeometry := λ path_data _ _ _ _, geometry_of (length path_data);
  assembleLeg := λ _ _ _ _ _ _, {| steps := []; leg_data := () |};
  assembleSteps := λ path_data _ _ _ _ _, steps_of (length path_data);
  trimShortSegments := λ steps geometry, (steps, geometry);
  handleRoundabouts := λ steps, steps;
  collapseTurnInstructions := λ steps, steps;
  anticipateLaneChange := λ steps, steps;
  buildIntersections := λ steps, steps;
  suppressShortNameSegments := λ steps, steps;
  assignRelativeLocations := λ steps _ _ _, steps;
  resyncGeometry := λ geometry _, geometry;
  assembleRoute := λ legs, length legs;
  assembleOverview := λ leg_geometries _, leg_geometries ≫= locations;
|}.

Definition json_of_coordinates (range : list Coordinate) : list json.Value :=
  (λ c, json.Number (lon c)) <$> range.

#[export] Instance json_factory : JsonFactory := {|
  makePolyline := λ precision range,
    json.Array (json.Number precision :: json_of_coordinates range);
  makeGeoJSONGeometry := λ range, json.Array (json_of_coordinates range);
  makeRouteLegs := λ legs step_geometries annotations,
    json.Object <$> annotations;
  makeRoute := λ route legs overview weight_name,
    <["weight_name" := json.String weight_name]>
      (<["legs" := json.Array legs]> ∅);
  MakeWaypoints := λ segment_end_coordinates,
    json.Array ((λ p, json.Number
                   (Z.of_N (SegmentID.id (forward_segment_id (source_phantom p)))))
                <$> segment_end_coordinates);
|}.

Definition request (annotations : bool)
    (annotations_type : RouteParameters.AnnotationsType.t)
    : RouteParameters.t :=
  {| RouteParameters.geometries := RouteParameters.Polyline;
     RouteParameters.overview := RouteParameters.False_;
     RouteParameters.steps := true;
     RouteParameters.annotations := annotations;
     RouteParameters.annotations_type := annotations_type |}.

(** The resolver at the start of a leg of [n] steps. *)
Definition start (n : nat) : Resolver :=
  {| leg_steps := steps_of n; leg_geometry := geometry_of n;
     done := false; trace := [] |}.

(** An override toward the node the leg ends on. *)
Definition to_30 : ManeuverOverride :=
  {| from_node := 10%N; via_node_id := 102%N; to_node := 30%N;
     override_type := 6%N; direction := 8%N |}.

(** The resolver after [to_12] was applied at the first step of a leg of
    seven steps. *)
Definition after_to_12 : Resolver :=
  {| leg_steps := <[2 := override_instruction to_12 (step_at 2)]> (steps_of 7);
     leg_geometry := geometry_of 7;
     done := true;
     trace := [StepVisited 0; OverrideVisited 0 to_15; OverrideVisited 0 to_12;
               ViaMatched 0 to_12 1] |}.

(** A raw route of one leg over [n] path data. *)
Definition raw_route (n : nat) (valid : bool) : InternalRouteResult :=
  {| unpacked_path_segments := [N.of_nat <$> seq 10 n];
     segment_end_coordinates := [phantoms];
     source_traversed_in_reverse := [false];
     target_traversed_in_reverse := [false];
     is_valid := valid |}.

(** Two raw routes, the first of them not valid. *)
Definition two_routes : InternalManyRoutesResult :=
  {| routes := [raw_route 3 false; raw_route 2 true] |}.

End Example.

(** ** Vocabulary of the statements *)

Section Vocabulary.
Context `{Double, Foreign}.
Context `{!DataFacade}.

(** The geometry of [step] is a range of the leg's locations and the
    coordinate of the via node of [o] is one of them. *)
Definition holds_via (geometry : LegGeometry) (o : ManeuverOverride)
    (step : RouteStep) : Prop :=
  ∃ range,
    slice (locations geometry) (geometry_begin step) (geometry_end step)
    = Some range
    ∧ GetCoordinateOfNode (via_node_id o) ∈ range.

(** The geometry of [step] is a range of the leg's locations and the
    coordinate of the via node of [o] is none of them. *)
Definition lacks_via (geometry : LegGeometry) (o : ManeuverOverride)
    (step : RouteStep) : Prop :=
  ∃ range,
    slice (locations geometry) (geometry_begin step) (geometry_end step)
    = Some range
    ∧ GetCoordinateOfNode (via_node_id o) ∉ range.

(** No via node was matched in this part of a trace. *)
Definition quiet (events : list Event) : Prop :=
  ∀ i o t, ViaMatched i o t ∉ events.

(** What a run of the resolver's loops comes to: nothing is matched and the
    steps are as before, or the run ends on the one match, with the steps
    as that override leaves them. *)
Definition outcome (i0 : nat) (st st' : Resolver) : Prop :=
  leg_geometry st' = leg_geometry st
  ∧ ((done st' = done st
      ∧ leg_steps st' = leg_steps st
      ∧ ∃ events, trace st' = trace st ++ events ∧ quiet events)
     ∨ (done st' = true
        ∧ ∃ events i o t,
            trace st' = trace st ++ events ++ [ViaMatched i o t]
            ∧ quiet events
            ∧ i0 ≤ i ≤ t ∧ t < length (leg_steps st)
            ∧ leg_steps st' = apply_override o t (leg_steps st))).

(** Every step's geometry is a range of the leg's locations. *)
Definition ranges_ok (steps : list RouteStep) (geometry : LegGeometry) : Prop :=
  ∀ k step, steps !! k = Some step →
    geometry_begin step ≤ geometry_end step
    ∧ geometry_end step ≤ length (locations geometry).

(** Two steps that differ at most in their maneuver instruction. *)
Definition same_but_instruction (s s' : RouteStep) : Prop :=
  from_id s' = from_id s
  ∧ geometry_begin s' = geometry_begin s
  ∧ geometry_end s' = geometry_end s
  ∧ maneuver_data (maneuver s') = maneuver_data (maneuver s)
  ∧ step_data s' = step_data s.

End Vocabulary.

Section ResponseVocabulary.
Context `{Double, Foreign}.
Context `{!DataFacade, !Guidance, !JsonFactory}.

(** The route entry [MakeResponse] builds for one raw route. *)
Definition route_entry (parameters : RouteParameters.t)
    (route : InternalRouteResult) : option json.Value :=
  json.Object
    <$> MakeRoute parameters (segment_end_coordinates route)
          (unpacked_path_segments route) (source_traversed_in_reverse route)
          (target_traversed_in_reverse route).

(** The raw routes whose validity flag is set, in their order. *)
Definition valid_routes (raw : list InternalRouteResult)
    : list InternalRouteResult :=
  filter (λ route, is_valid route = true) raw.

End ResponseVocabulary.

Section CoverageVocabulary.
Context `{Double, Foreign}.
Context `{!DataFacade, !Guidance, !JsonFactory}.

(** The variables of the resolver when its loops start. *)
Definition resolver_start (steps : list RouteStep) (geometry : LegGeometry)
    : Resolver :=
  {| leg_steps := steps; leg_geometry := geometry;
     done := false; trace := [] |}.

(** The override [o], looked at from step [i] of the leg, does not reach
    its application: it is skipped at the check of its [to_node], or its
    via node is in no geometry of the window. *)
Definition passes_over (steps : list RouteStep) (geometry : LegGeometry)
    (phantoms : PhantomNodes) (reversed_target : bool) (i : nat)
    (o : ManeuverOverride) : Prop :=
  check_override (resolver_start steps geometry) phantoms reversed_target i o
  = Some Skipped
  ∨ check_override (resolver_start steps geometry) phantoms reversed_target i o
    = Some NoViaMatch.

(** The request with its legacy flag [annotations] set to [flag]. *)
Definition with_annotations (parameters : RouteParameters.t) (flag : bool)
    : RouteParameters.t :=
  {| RouteParameters.geometries := RouteParameters.geometries parameters;
     RouteParameters.overview := RouteParameters.overview parameters;
     RouteParameters.steps := RouteParameters.steps parameters;
     RouteParameters.annotations := flag;
     RouteParameters.annotations_type :=
       RouteParameters.annotations_type parameters |}.

(** The keys an annotation object can have. *)
Definition annotation_keys : list string :=
  ["speed"; "duration"; "distance"; "weight"; "datasources"; "nodes"].

(** The steps and the geometry of a leg as the guidance collaborators leave
    them, before the override resolver: the post-processed ones when steps
    are requested, the assembled ones otherwise. *)
Definition guided_leg (parameters : RouteParameters.t)
    (phantoms : PhantomNodes) (path_data : list PathData)
    (reversed_source reversed_target : bool) : RouteLeg * LegGeometry :=
  let geometry0 :=
    assembleGeometry path_data (source_phantom phantoms)
      (target_phantom phantoms) reversed_source reversed_target in
  let leg0 :=
    assembleLeg path_data geometry0 (source_phantom phantoms)
      (target_phantom phantoms) reversed_target
      (RouteParameters.steps parameters) in
  if RouteParameters.steps parameters
  then
    post_process phantoms leg0
      (assembleSteps path_data geometry0 (source_phantom phantoms)
         (target_phantom phantoms) reversed_source reversed_target)
      geometry0
  else (leg0, geometry0).

(** The four vectors of a raw route have one entry for each leg, and the
    guidance collaborators leave every step of every leg with a geometry
    that is a range of the leg's locations. *)
Definition route_in_range (parameters : RouteParameters.t)
    (segment_end_coordinates : list PhantomNodes)
    (unpacked_path_segments : list (list PathData))
    (source_traversed_in_reverse target_traversed_in_reverse : list bool)
    : Prop :=
  length unpacked_path_segments = length segment_end_coordinates
  ∧ length source_traversed_in_reverse = length segment_end_coordinates
  ∧ length target_traversed_in_reverse = length segment_end_coordinates
  ∧ ∀ idx phantoms path_data reversed_source reversed_target,
      segment_end_coordinates !! idx = Some phantoms →
      unpacked_path_segments !! idx = Some path_data →
      source_traversed_in_reverse !! idx = Some reversed_source →
      target_traversed_in_reverse !! idx = Some reversed_target →
      ranges_ok
        (steps (guided_leg parameters phantoms path_data reversed_source
                  reversed_target).1)
        (guided_leg parameters phantoms path_data reversed_source
           reversed_target).2.

End CoverageVocabulary.

(** ** Ranges and [std::find_if] *)

Section RangeFacts.
Context {A : Type}.
Implicit Types (p : A → bool) (l : list A).

Lemma find_if_le p l : find_if p l ≤ length l.
Proof. induction l as [|x l IH]; simpl; [lia|]. destruct (p x); lia. Qed.

Lemma find_if_end p l :
  find_if p l = length l ↔ ∀ x, x ∈ l → p x = false.
Proof.
  induction l as [|x l IH]; simpl.
  - split; [intros _ y Hy; inversion Hy | done].
  - destruct (p x) eqn:Hx.
    + split; [lia|]. intros Hall. specialize (Hall x (list_elem_of_here _ _)).
      congruence.
    + split.
      * intros Hlen y Hy. apply elem_of_cons in Hy as [->|Hy]; [done|].
        apply IH; [lia | done].
      * intros Hall. f_equal. apply IH. intros y Hy. apply Hall.
        by apply list_elem_of_further.
Qed.

Lemma find_if_first p l k x :
  l !! k = Some x → p x = true →
  (∀ j y, j < k → l !! j = Some y → p y = false) →
  find_if p l = k.
Proof.
  revert k. induction l as [|z l IH]; intros k Hk Hx Hbefore; [done|].
  destruct k as [|k]; simpl in *.
  - injection Hk as ->. by rewrite Hx.
  - rewrite (Hbefore 0 z); [|lia|done]. f_equal.
    apply IH; [done..|]. intros j y Hj Hy. apply (Hbefore (S j)); [lia|done].
Qed.

Lemma find_if_found p l :
  find_if p l ≠ length l → ∃ x, l !! find_if p l = Some x ∧ p x = true.
Proof.
  induction l as [|z l IH]; simpl; [done|]. destruct (p z) eqn:Hz.
  - intros _. by exists z.
  - intros Hne. apply IH. lia.
Qed.

Lemma slice_Some l first last :
  first ≤ last → last ≤ length l → is_Some (slice l first last).
Proof. intros ??. unfold slice. rewrite decide_True; eauto. Qed.

End RangeFacts.

(** ** The lookahead window *)

Section WindowFacts.
Context `{Double, Foreign}.
Implicit Types (steps : list RouteStep) (i k : nat).

Lemma MAX_MANEUVER_DISTANCE_le steps i : MAX_MANEUVER_DISTANCE steps i ≤ 5.
Proof. unfold MAX_MANEUVER_DISTANCE. lia. Qed.

Lemma max_steps_fwd_le steps i :
  i ≤ length steps → max_steps_fwd steps i ≤ length steps.
Proof. unfold max_steps_fwd, MAX_MANEUVER_DISTANCE. lia. Qed.

Lemma length_window steps i :
  length (window steps i) = MAX_MANEUVER_DISTANCE steps i.
Proof.
  unfold window, MAX_MANEUVER_DISTANCE.
  rewrite length_take, length_drop. lia.
Qed.

Lemma lookup_window steps i k :
  k < MAX_MANEUVER_DISTANCE steps i → window steps i !! k = steps !! (i + k).
Proof.
  intros Hk. unfold window. rewrite lookup_take_lt by done.
  by rewrite lookup_drop.
Qed.

Lemma window_reaches steps i k step :
  steps !! (i + k) = Some step → k < 5 → k < MAX_MANEUVER_DISTANCE steps i.
Proof.
  intros Hk%lookup_lt_Some ?. unfold MAX_MANEUVER_DISTANCE. lia.
Qed.

Lemma to_match_le steps i o : to_match steps i o ≤ max_steps_fwd steps i.
Proof.
  unfold to_match, max_steps_fwd. rewrite <- length_window.
  pose proof (find_if_le
    (λ step, bool_decide (from_id step = to_node o)) (window steps i)). lia.
Qed.

(** [to_match] is [max_steps_fwd] exactly when no step of the window leaves
    from [to_node]. *)
Lemma to_match_end steps i o :
  to_match steps i o = max_steps_fwd steps i
  ↔ ∀ k step, k < 5 → steps !! (i + k) = Some step →
      from_id step ≠ to_node o.
Proof.
  unfold to_match, max_steps_fwd. rewrite <- length_window.
  rewrite Nat.add_cancel_l, find_if_end. split.
  - intros Hall k step Hk Hstep.
    assert (k < MAX_MANEUVER_DISTANCE steps i) as Hmax
      by eauto using window_reaches.
    specialize (Hall step). rewrite bool_decide_eq_false in Hall.
    apply Hall, list_elem_of_lookup. exists k. by rewrite lookup_window.
  - intros Hall step [k Hk]%list_elem_of_lookup.
    rewrite bool_decide_eq_false.
    assert (k < MAX_MANEUVER_DISTANCE steps i) as Hmax.
    { apply lookup_lt_Some in Hk. by rewrite length_window in Hk. }
    rewrite lookup_window in Hk by done.
    pose proof (MAX_MANEUVER_DISTANCE_le steps i). eapply Hall; [|done]. lia.
Qed.

End WindowFacts.

(** ** The search for the via node *)

Section ViaSearchFacts.
Context `{Double, Foreign}.
Context `{!DataFacade}.
Implicit Types (steps : list RouteStep) (geometry : LegGeometry).
Implicit Types (o : ManeuverOverride) (st : Resolver).

Lemma via_search_step steps geometry o c n step range :
  steps !! c = Some step →
  slice (locations geometry) (geometry_begin step) (geometry_end step)
  = Some range →
  via_search steps geometry o c (S n)
  = if decide (GetCoordinateOfNode (via_node_id o) ∈ range)
    then Some (Some c)
    else via_search steps geometry o (S c) n.
Proof.
  intros Hstep Hrange. simpl. rewrite Hstep. simpl. rewrite Hrange. simpl.
  set (p := λ location : Coordinate,
              bool_decide (location = GetCoordinateOfNode (via_node_id o))).
  destruct (decide (find_if p range = length range)) as [Hend|Hfound].
  - rewrite decide_False; [done|]. intros Hin.
    apply find_if_end with (x := GetCoordinateOfNode (via_node_id o)) in Hend;
      [|done].
    unfold p in Hend. by rewrite bool_decide_eq_false in Hend.
  - rewrite decide_True; [done|].
    destruct (decide (GetCoordinateOfNode (via_node_id o) ∈ range))
      as [|Hnotin]; [done|].
    exfalso. apply Hfound, find_if_end. intros x Hx. unfold p.
    rewrite bool_decide_eq_false. by intros ->.
Qed.

(** The search returns the first step, from [c] on, whose geometry holds the
    via node. *)
Lemma via_search_found steps geometry o c n t step :
  c ≤ t < c + n →
  (∀ c', c ≤ c' < t → ∃ s, steps !! c' = Some s ∧ lacks_via geometry o s) →
  steps !! t = Some step →
  holds_via geometry o step →
  via_search steps geometry o c n = Some (Some t).
Proof.
  revert c. induction n as [|n IH]; intros c Ht Hbefore Hstep Hvia; [lia|].
  destruct (decide (c = t)) as [->|Hne].
  - destruct Hvia as (range & Hrange & Hin).
    erewrite via_search_step by done. by rewrite decide_True.
  - destruct (Hbefore c) as (s & Hs & range & Hrange & Hnotin); [lia|].
    erewrite via_search_step by done. rewrite decide_False by done.
    apply IH; [lia| |done..]. intros c' Hc'. apply Hbefore. lia.
Qed.

Lemma via_search_inv steps geometry o c n t :
  via_search steps geometry o c n = Some (Some t) →
  c ≤ t < c + n
  ∧ (∀ c', c ≤ c' < t → ∃ s, steps !! c' = Some s ∧ lacks_via geometry o s)
  ∧ ∃ step, steps !! t = Some step ∧ holds_via geometry o step.
Proof.
  revert c. induction n as [|n IH]; intros c Hsearch; [done|].
  destruct (steps !! c) as [step|] eqn:Hstep; [|by simpl in Hsearch; rewrite Hstep in Hsearch].
  destruct (slice (locations geometry) (geometry_begin step) (geometry_end step))
    as [range|] eqn:Hrange;
    [|by simpl in Hsearch; rewrite Hstep in Hsearch; simpl in Hsearch;
         rewrite Hrange in Hsearch].
  erewrite via_search_step in Hsearch by done.
  destruct (decide (GetCoordinateOfNode (via_node_id o) ∈ range)) as [Hin|Hnotin].
  - injection Hsearch as <-. split; [lia|]. split; [intros c'; lia|].
    exists step. split; [done|]. by exists range.
  - apply IH in Hsearch as (Ht & Hbefore & Hfound). split; [lia|].
    split; [|done]. intros c' Hc'.
    destruct (decide (c' = c)) as [->|]; [|apply Hbefore; lia].
    exists step. split; [done|]. by exists range.
Qed.

(** With every geometry a range of the locations the search has a result. *)
Lemma via_search_defined steps geometry o c n :
  ranges_ok steps geometry → c + n ≤ length steps →
  is_Some (via_search steps geometry o c n).
Proof.
  intros Hok. revert c. induction n as [|n IH]; intros c Hlen; [by eexists|].
  destruct (lookup_lt_is_Some_2 steps c) as [step Hstep]; [lia|].
  destruct (Hok c step Hstep) as [Hbe Hel].
  destruct (slice_Some (locations geometry) _ _ Hbe Hel) as [range Hrange].
  erewrite via_search_step by done. case_decide; [by eexists|].
  apply IH. lia.
Qed.

(** Lines 234-246 in words: the override goes on to the via search when a
    step of the window leaves from its [to_node], or when the window is cut
    short by the end of the leg and the leg ends on its [to_node]. *)
Lemma to_node_accepted_spec steps phantoms reversed_target i o :
  to_node_accepted steps phantoms reversed_target i o = true
  ↔ (∃ k step, k < 5 ∧ steps !! (i + k) = Some step
               ∧ from_id step = to_node o)
    ∨ (length steps - i < 5
       ∧ target_node phantoms reversed_target = to_node o).
Proof.
  unfold to_node_accepted.
  destruct (decide (to_match steps i o = max_steps_fwd steps i)) as [Hend|Hin].
  - pose proof (proj1 (to_match_end steps i o) Hend) as Hnone.
    destruct (bool_decide (5 ≤ MAX_MANEUVER_DISTANCE steps i)) eqn:Hmax; simpl.
    + apply bool_decide_eq_true in Hmax. unfold MAX_MANEUVER_DISTANCE in Hmax.
      split; [done|]. intros [(k & step & Hk & Hstep & Hid)|[Hclip _]];
        exfalso; [by eapply Hnone | lia].
    + apply bool_decide_eq_false in Hmax. unfold MAX_MANEUVER_DISTANCE in Hmax.
      destruct (bool_decide (target_node phantoms reversed_target ≠ to_node o))
        eqn:Htarget.
      * apply bool_decide_eq_true in Htarget. split; [done|].
        intros [(k & step & Hk & Hstep & Hid)|[_ Heq]];
          exfalso; [by eapply Hnone | done].
      * apply bool_decide_eq_false in Htarget. split; [|done]. intros _.
        right. split; [lia|].
        by destruct (decide (target_node phantoms reversed_target = to_node o)).
  - split; [|done]. intros _. left.
    unfold to_match, max_steps_fwd in Hin. rewrite <- length_window in Hin.
    destruct (find_if_found
      (λ step, bool_decide (from_id step = to_node o)) (window steps i))
      as (step & Hstep & Hid); [lia|].
    apply bool_decide_eq_true in Hid.
    pose proof (lookup_lt_Some _ _ _ Hstep) as Hlt.
    rewrite length_window in Hlt. rewrite lookup_window in Hstep by done.
    pose proof (MAX_MANEUVER_DISTANCE_le steps i).
    eexists _, step. split; [|done]. lia.
Qed.

End ViaSearchFacts.

(** ** One override at one step *)

Section OverrideFacts.
Context `{Double, Foreign}.
Context `{!DataFacade}.
Implicit Types (steps : list RouteStep) (geometry : LegGeometry).
Implicit Types (o : ManeuverOverride) (st : Resolver).
Implicit Types (phantoms : PhantomNodes) (reversed_target : bool).

Lemma check_override_log st e phantoms reversed_target i o :
  check_override (log e st) phantoms reversed_target i o
  = check_override st phantoms reversed_target i o.
Proof. done. Qed.

Lemma check_override_Skipped st phantoms reversed_target i o :
  check_override st phantoms reversed_target i o = Some Skipped
  ↔ to_node_accepted (leg_steps st) phantoms reversed_target i o = false.
Proof.
  unfold check_override.
  destruct (to_node_accepted _ _ _ _ _); [|done].
  split; [|done].
  by destruct (via_search _ _ _ _ _) as [[?|]|].
Qed.

(** An override that is skipped leaves the loop to the next override. *)
Lemma for_overrides_skip st phantoms reversed_target i o os :
  check_override st phantoms reversed_target i o = Some Skipped →
  for_overrides phantoms reversed_target i (o :: os) st
  = for_overrides phantoms reversed_target i os (log (OverrideVisited i o) st).
Proof. intros Hskip. simpl. rewrite check_override_log, Hskip. done. Qed.

(** C2 (as amended).  When the first step ahead of step [i] that leaves from
    the override's [to_node] is [k] positions ahead, the override passes
    the check of its [to_node] exactly when [k] is at most 4: the window
    holds the five steps [i .. i + 4].  From 5 positions on (6 included)
    the override is skipped at step [i] and the loop goes on to the next
    override; the end-of-route fallback cannot accept it, because the
    window was not cut short. *)
Theorem lookahead_window_reach st phantoms reversed_target i o os k step :
  leg_steps st !! (i + k) = Some step →
  from_id step = to_node o →
  (∀ j s, j < k → leg_steps st !! (i + j) = Some s → from_id s ≠ to_node o) →
  to_node_accepted (leg_steps st) phantoms reversed_target i o
  = bool_decide (k < 5)
  ∧ (check_override st phantoms reversed_target i o = Some Skipped ↔ 5 ≤ k)
  ∧ (5 ≤ k →
     for_overrides phantoms reversed_target i (o :: os) st
     = for_overrides phantoms reversed_target i os
         (log (OverrideVisited i o) st)).
Proof.
  intros Hstep Hid Hfirst.
  assert (to_node_accepted (leg_steps st) phantoms reversed_target i o
          = bool_decide (k < 5)) as Haccepted.
  { destruct (decide (k < 5)) as [Hk|Hk].
    - rewrite bool_decide_eq_true_2 by done.
      apply to_node_accepted_spec. left. eauto.
    - rewrite bool_decide_eq_false_2 by done.
      apply not_true_is_false. intros Hacc.
      apply to_node_accepted_spec in Hacc
        as [(j & s & Hj & Hs & Hsid)|[Hclip _]].
      + apply (Hfirst j s); [lia|done..].
      + apply lookup_lt_Some in Hstep. lia. }
  assert (check_override st phantoms reversed_target i o = Some Skipped
          ↔ 5 ≤ k) as Hskip.
  { rewrite check_override_Skipped, Haccepted, bool_decide_eq_false. lia. }
  split; [done|]. split; [done|].
  intros Hk. apply for_overrides_skip, Hskip, Hk.
Qed.

(** C4.  When no step of the window leaves from the override's [to_node],
    the override goes on to the via search only when fewer than 5 steps
    remain from the current step and the segment identifier of the leg's
    target (reverse when the target is traversed in reverse, forward
    otherwise) is the override's [to_node]; otherwise it is skipped and the
    loop goes on to the next override. *)
Theorem end_of_route_fallback st phantoms reversed_target i o os :
  (∀ k step, k < 5 → leg_steps st !! (i + k) = Some step →
     from_id step ≠ to_node o) →
  let fallback :=
    length (leg_steps st) - i < 5
    ∧ (if reversed_target
       then SegmentID.id (reverse_segment_id (target_phantom phantoms))
       else SegmentID.id (forward_segment_id (target_phantom phantoms)))
      = to_node o in
  (fallback →
     check_override st phantoms reversed_target i o
     = via_verdict
         <$> via_search (leg_steps st) (leg_geometry st) o i
               (MAX_MANEUVER_DISTANCE (leg_steps st) i))
  ∧ (¬ fallback →
     check_override st phantoms reversed_target i o = Some Skipped
     ∧ for_overrides phantoms reversed_target i (o :: os) st
       = for_overrides phantoms reversed_target i os
           (log (OverrideVisited i o) st)).
Proof.
  intros Hnone fallback.
  assert (to_node_accepted (leg_steps st) phantoms reversed_target i o = true
          ↔ fallback) as Hacc.
  { rewrite to_node_accepted_spec. unfold fallback, target_node. split.
    - intros [(k & step & Hk & Hstep & Hid)|Hfb]; [|done].
      by destruct (Hnone k step).
    - by right. }
  split.
  - intros Hfb%Hacc. unfold check_override. by rewrite Hfb.
  - intros Hfb.
    assert (check_override st phantoms reversed_target i o = Some Skipped)
      as Hskip.
    { apply check_override_Skipped, not_true_is_false. by rewrite Hacc. }
    split; [done|]. by apply for_overrides_skip.
Qed.

(** C5.  When the override has passed the check of its [to_node] and step
    [t] is the first step from the current one, inside the window, whose
    geometry holds the coordinate of the via node, the loop over the
    overrides ends with [done] set, and the step written is the one at
    [t + 1]: when [t] is the last step of the leg the steps are as before,
    and a result is returned all the same; otherwise the instruction type
    of that step is the override's type, its direction modifier is the
    override's direction unless that is [MaxDirectionModifier], in which
    case it stays, and the rest of the step is as before. *)
Theorem override_mutates_following_step st phantoms reversed_target i o os
    t step :
  to_node_accepted (leg_steps st) phantoms reversed_target i o = true →
  i ≤ t < max_steps_fwd (leg_steps st) i →
  (∀ c, i ≤ c < t →
     ∃ s, leg_steps st !! c = Some s ∧ lacks_via (leg_geometry st) o s) →
  leg_steps st !! t = Some step →
  holds_via (leg_geometry st) o step →
  ∃ st',
    for_overrides phantoms reversed_target i (o :: os) st = Some st'
    ∧ done st' = true
    ∧ leg_geometry st' = leg_geometry st
    ∧ match leg_steps st !! S t with
      | None => S t = length (leg_steps st) ∧ leg_steps st' = leg_steps st
      | Some next =>
          leg_steps st'
          = <[S t :=
               {| from_id := from_id next;
                  geometry_begin := geometry_begin next;
                  geometry_end := geometry_end next;
                  maneuver :=
                    {| instruction :=
                         {| type := override_type o;
                            direction_modifier :=
                              if decide (direction o = MaxDirectionModifier)
                              then direction_modifier
                                     (instruction (maneuver next))
                              else direction o |};
                       maneuver_data := maneuver_data (maneuver next) |};
                  step_data := step_data next |}]> (leg_steps st)
      end.
Proof.
  intros Hacc Ht Hbefore Hstep Hvia.
  assert (via_search (leg_steps st) (leg_geometry st) o i
            (MAX_MANEUVER_DISTANCE (leg_steps st) i) = Some (Some t))
    as Hsearch by (eapply via_search_found; eauto).
  eexists. split.
  { simpl. rewrite check_override_log. unfold check_override.
    rewrite Hacc, Hsearch. simpl. reflexivity. }
  simpl. split; [done|]. split; [done|].
  unfold apply_override.
  destruct (leg_steps st !! S t) as [next|] eqn:Hnext.
  - unfold override_instruction. do 4 f_equal.
    destruct (decide (direction o = MaxDirectionModifier)) as [Heq|Hne].
    + by rewrite decide_False by (by intros ?).
    + by rewrite decide_True.
  - split; [|done]. apply lookup_ge_None in Hnext.
    apply lookup_lt_Some in Hstep. lia.
Qed.

End OverrideFacts.

(** ** The loops of the resolver *)

Section LoopFacts.
Context `{Double, Foreign}.
Context `{!DataFacade}.
Implicit Types (steps : list RouteStep) (geometry : LegGeometry).
Implicit Types (o : ManeuverOverride) (st : Resolver) (events : list Event).
Implicit Types (phantoms : PhantomNodes) (reversed_target : bool).

Lemma quiet_nil : quiet [].
Proof. intros i o t Hin. inversion Hin. Qed.

Lemma quiet_app events1 events2 :
  quiet events1 → quiet events2 → quiet (events1 ++ events2).
Proof.
  intros Hq1 Hq2 i o t [Hin|Hin]%elem_of_app; [by eapply Hq1 | by eapply Hq2].
Qed.

Lemma quiet_StepVisited i : quiet [StepVisited i].
Proof. intros i' o t Hin. apply list_elem_of_singleton in Hin. done. Qed.

Lemma quiet_OverrideVisited i o : quiet [OverrideVisited i o].
Proof. intros i' o' t Hin. apply list_elem_of_singleton in Hin. done. Qed.

(** A match that closes a quiet trace is the only match of the trace. *)
Lemma quiet_then_match events e before i o t after :
  quiet events →
  events ++ [e] = before ++ ViaMatched i o t :: after →
  after = [] ∧ before = events ∧ e = ViaMatched i o t.
Proof.
  intros Hquiet Heq.
  destruct after as [|e' after _] using rev_ind.
  - apply app_inj_tail in Heq as [-> ->]. done.
  - exfalso. rewrite app_comm_cons, app_assoc in Heq.
    apply app_inj_tail in Heq as [-> _].
    apply (Hquiet i o t). apply elem_of_app. right. left.
Qed.

Lemma for_overrides_outcome phantoms reversed_target i os st st' :
  for_overrides phantoms reversed_target i os st = Some st' →
  outcome i st st'.
Proof.
  revert st. induction os as [|o os IH]; intros st Hrun; simpl in Hrun.
  - injection Hrun as <-. split; [done|]. left. split; [done|].
    split; [done|]. exists []. rewrite app_nil_r. auto using quiet_nil.
  - rewrite check_override_log in Hrun.
    destruct (check_override st phantoms reversed_target i o)
      as [verdict|] eqn:Hcheck; [|done].
    simpl in Hrun.
    assert (for_overrides phantoms reversed_target i os
              (log (OverrideVisited i o) st) = Some st' →
            outcome i st st') as Hnext.
    { intros [Hgeo Hcases]%IH. split; [done|]. simpl in Hcases.
      destruct Hcases as [(Hdone & Hsteps & events & Htrace & Hquiet)
                         |(Hdone & events & i' & o' & t & Htrace & Hquiet
                           & Hrest)].
      - left. split; [done|]. split; [done|].
        exists (OverrideVisited i o :: events).
        split; [by rewrite Htrace, <- app_assoc|].
        apply (quiet_app [_]); auto using quiet_OverrideVisited.
      - right. split; [done|].
        exists (OverrideVisited i o :: events), i', o', t.
        split; [by rewrite Htrace, <- app_assoc|].
        split; [|done].
        apply (quiet_app [_]); auto using quiet_OverrideVisited. }
    destruct verdict as [| |t]; [by apply Hnext..|].
    injection Hrun as <-. split; [done|]. right. split; [done|].
    exists [OverrideVisited i o], i, o, t. simpl.
    split; [by rewrite <- app_assoc|].
    split; [apply quiet_OverrideVisited|].
    unfold check_override in Hcheck.
    destruct (to_node_accepted _ _ _ _ _); [|done].
    destruct (via_search _ _ _ _ _) as [[t'|]|] eqn:Hsearch; [|done..].
    injection Hcheck as ->.
    apply via_search_inv in Hsearch as (Ht & _ & step & Hstep%lookup_lt_Some & _).
    split; [lia|done].
Qed.

Lemma outcome_weaken i0 i1 st st' :
  i0 ≤ i1 → outcome i1 st st' → outcome i0 st st'.
Proof.
  intros Hle [Hgeo Hcases]. split; [done|].
  destruct Hcases as [Hcase|(Hdone & events & i & o & t & Htrace & Hquiet
                             & Hit & Hrest)]; [by left|].
  right. split; [done|]. exists events, i, o, t.
  split; [done|]. split; [done|]. split; [lia|done].
Qed.

Lemma for_steps_outcome phantoms reversed_target n i st st' :
  for_steps phantoms reversed_target n i st = Some st' →
  outcome i st st'.
Proof.
  revert i st. induction n as [|n IH]; intros i st Hrun; simpl in Hrun.
  - injection Hrun as <-. split; [done|]. left. split; [done|].
    split; [done|]. exists []. rewrite app_nil_r. auto using quiet_nil.
  - destruct (leg_steps st !! i) as [current_step|]; [|done]. simpl in Hrun.
    assert (∀ st1, outcome i (log (StepVisited i) st) st1 →
                   outcome i st st1) as Hvisited.
    { intros st1 [Hgeo Hcases]. split; [done|]. simpl in Hcases.
      destruct Hcases as [(Hdone & Hsteps & events & Htrace & Hquiet)
                         |(Hdone & events & i' & o' & t & Htrace & Hquiet
                           & Hrest)].
      - left. split; [done|]. split; [done|].
        exists (StepVisited i :: events).
        split; [by rewrite Htrace, <- app_assoc|].
        apply (quiet_app [_]); auto using quiet_StepVisited.
      - right. split; [done|].
        exists (StepVisited i :: events), i', o', t.
        split; [by rewrite Htrace, <- app_assoc|].
        split; [|done].
        apply (quiet_app [_]); auto using quiet_StepVisited. }
    apply Hvisited.
    destruct (GetOverridesThatStartAt (from_id current_step)) as [|o os].
    { apply IH in Hrun. eapply outcome_weaken; [|done]. lia. }
    destruct (for_overrides phantoms reversed_target i (o :: os)
                (log (StepVisited i) st)) as [st1|] eqn:Hfor; [|done].
    simpl in Hrun.
    pose proof (for_overrides_outcome _ _ _ _ _ _ Hfor) as Hout1.
    destruct (done st1) eqn:Hdone1; [by injection Hrun as <-|].
    apply IH in Hrun. apply (outcome_weaken i (S i)) in Hrun; [|lia].
    destruct Hout1 as [Hgeo1 [(Hd1 & Hsteps1 & events1 & Htrace1 & Hquiet1)
                             |(Hd1 & _)]]; [|congruence].
    destruct Hrun as [Hgeo Hcases]. split; [congruence|].
    destruct Hcases as [(Hdone & Hsteps & events & Htrace & Hquiet)
                       |(Hdone & events & i' & o' & t & Htrace & Hquiet
                         & Hit & Hlen & Hsteps)].
    + left. split; [congruence|]. split; [congruence|].
      exists (events1 ++ events).
      split; [by rewrite Htrace, Htrace1, <- app_assoc|].
      by apply quiet_app.
    + right. split; [done|]. exists (events1 ++ events), i', o', t.
      split; [by rewrite Htrace, Htrace1, <- !app_assoc|].
      split; [by apply quiet_app|].
      rewrite Hsteps1 in Hlen, Hsteps. done.
Qed.

Lemma for_overrides_defined phantoms reversed_target i os st :
  ranges_ok (leg_steps st) (leg_geometry st) →
  i ≤ length (leg_steps st) →
  is_Some (for_overrides phantoms reversed_target i os st).
Proof.
  intros Hok Hi. revert st Hok Hi.
  induction os as [|o os IH]; intros st Hok Hi; simpl; [by eexists|].
  rewrite check_override_log.
  assert (is_Some (check_override st phantoms reversed_target i o))
    as [verdict ->].
  { unfold check_override. destruct (to_node_accepted _ _ _ _ _); [|by eexists].
    destruct (via_search_defined (leg_steps st) (leg_geometry st) o i
                (MAX_MANEUVER_DISTANCE (leg_steps st) i) Hok) as [found ->].
    - by apply max_steps_fwd_le.
    - by eexists. }
  simpl. destruct verdict; [by apply IH..|by eexists].
Qed.

Lemma for_steps_defined phantoms reversed_target n i st :
  ranges_ok (leg_steps st) (leg_geometry st) →
  i + n ≤ length (leg_steps st) →
  is_Some (for_steps phantoms reversed_target n i st).
Proof.
  revert i st. induction n as [|n IH]; intros i st Hok Hlen; simpl;
    [by eexists|].
  destruct (lookup_lt_is_Some_2 (leg_steps st) i) as [current_step ->]; [lia|].
  simpl.
  destruct (GetOverridesThatStartAt (from_id current_step)) as [|o os].
  { apply IH; [done|simpl; lia]. }
  destruct (for_overrides_defined phantoms reversed_target i (o :: os)
              (log (StepVisited i) st)) as [st1 Hfor]; [done|simpl; lia|].
  rewrite Hfor. simpl. destruct (done st1) eqn:Hdone1; [by eexists|].
  apply for_overrides_outcome in Hfor
    as [Hgeo [(_ & Hsteps & _)|(Hd & _)]]; [|congruence].
  simpl in *. apply IH; [by rewrite Hgeo, Hsteps|rewrite Hsteps; lia].
Qed.

Lemma apply_manual_overrides_defined phantoms reversed_target steps geometry :
  ranges_ok steps geometry →
  is_Some (apply_manual_overrides phantoms reversed_target steps geometry).
Proof. intros Hok. by apply for_steps_defined. Qed.

Lemma apply_manual_overrides_outcome phantoms reversed_target steps geometry st' :
  apply_manual_overrides phantoms reversed_target steps geometry = Some st' →
  leg_geometry st' = geometry
  ∧ ((done st' = false ∧ leg_steps st' = steps ∧ quiet (trace st'))
     ∨ (done st' = true
        ∧ ∃ events i o t,
            trace st' = events ++ [ViaMatched i o t]
            ∧ quiet events ∧ i ≤ t < length steps
            ∧ leg_steps st' = apply_override o t steps)).
Proof.
  intros [Hgeo Hcases]%for_steps_outcome. split; [done|]. simpl in Hcases.
  destruct Hcases as [(Hdone & Hsteps & events & Htrace & Hquiet)
                     |(Hdone & events & i & o & t & Htrace & Hquiet
                       & Hit & Hlen & Hsteps)].
  - left. by rewrite Htrace.
  - right. split; [done|]. exists events, i, o, t. repeat split; try done. lia.
Qed.

Lemma override_instruction_same o step :
  same_but_instruction step (override_instruction o step).
Proof. done. Qed.

End LoopFacts.

(** ** The resolver on a leg *)

Section ResolverFacts.
Context `{Double, Foreign}.
Context `{!DataFacade}.
Implicit Types (steps : list RouteStep) (geometry : LegGeometry).
Implicit Types (o : ManeuverOverride) (st : Resolver) (events : list Event).
Implicit Types (phantoms : PhantomNodes) (reversed_target : bool).

Lemma apply_override_other o t steps k :
  k ≠ S t → apply_override o t steps !! k = steps !! k.
Proof.
  intros Hk. unfold apply_override. destruct (steps !! S t); [|done].
  by rewrite list_lookup_insert_ne.
Qed.

Lemma apply_override_length o t steps :
  length (apply_override o t steps) = length steps.
Proof.
  unfold apply_override. destruct (steps !! S t); [|done].
  by rewrite length_insert.
Qed.

Lemma apply_override_same o t steps k s :
  steps !! k = Some s →
  ∃ s', apply_override o t steps !! k = Some s' ∧ same_but_instruction s s'.
Proof.
  intros Hs. destruct (decide (k = S t)) as [->|Hne].
  - unfold apply_override. rewrite Hs.
    rewrite list_lookup_insert_eq by (by eapply lookup_lt_Some).
    eexists. split; [done|]. apply override_instruction_same.
  - rewrite apply_override_other by done. by exists s.
Qed.

(** C3.  In a run of the resolver on a leg, the event of an override
    reaching its application (its via node found in the window, whether a
    step is then written or the match is on the last step) is the last
    event of the run: no override and no step is visited after it, none was
    matched before it, [done] is set and the steps are the given ones after
    that one application.  So the steps of the leg differ from the given
    ones at one index at most. *)
Theorem first_match_stops_leg phantoms reversed_target steps geometry st' :
  apply_manual_overrides phantoms reversed_target steps geometry = Some st' →
  (∀ before i o t after,
     trace st' = before ++ ViaMatched i o t :: after →
     after = [] ∧ quiet before ∧ done st' = true
     ∧ leg_steps st' = apply_override o t steps)
  ∧ (∃ j, ∀ k, k ≠ j → leg_steps st' !! k = steps !! k).
Proof.
  intros [_ Hcases]%apply_manual_overrides_outcome.
  destruct Hcases as [(Hdone & Hsteps & Hquiet)
                     |(Hdone & events & i & o & t & Htrace & Hquiet
                       & Hit & Hsteps)].
  - split.
    + intros before i o t after Htrace. exfalso.
      apply (Hquiet i o t). rewrite Htrace. apply elem_of_app. right. left.
    + exists 0. intros k _. by rewrite Hsteps.
  - split.
    + intros before i' o' t' after Heq. rewrite Htrace in Heq.
      apply quiet_then_match in Heq as (-> & -> & Hev); [|done].
      injection Hev as -> -> ->. done.
    + exists (S t). intros k Hk. rewrite Hsteps.
      by apply apply_override_other.
Qed.

(** C9.  The resolver returns the geometry of the leg as it was given, and
    steps that are the given ones except, at one index at most, for the
    maneuver instruction: every other field of every step is as before.
    It has a result whenever every step's geometry is a range of the leg's
    locations. *)
Theorem resolver_frame phantoms reversed_target steps geometry :
  (ranges_ok steps geometry →
   is_Some (apply_manual_overrides phantoms reversed_target steps geometry))
  ∧ ∀ st',
      apply_manual_overrides phantoms reversed_target steps geometry
      = Some st' →
      locations (leg_geometry st') = locations geometry
      ∧ annotations (leg_geometry st') = annotations geometry
      ∧ leg_geometry st' = geometry
      ∧ length (leg_steps st') = length steps
      ∧ (∀ k s, steps !! k = Some s →
           ∃ s', leg_steps st' !! k = Some s' ∧ same_but_instruction s s')
      ∧ (∃ j, ∀ k, k ≠ j → leg_steps st' !! k = steps !! k).
Proof.
  split; [apply apply_manual_overrides_defined|].
  intros st' Hrun.
  pose proof (first_match_frame_aux := apply_manual_overrides_outcome
                _ _ _ _ _ Hrun).
  destruct first_match_frame_aux as [Hgeo Hcases].
  rewrite Hgeo. do 3 (split; [done|]).
  destruct Hcases as [(_ & Hsteps & _)
                     |(_ & events & i & o & t & _ & _ & _ & Hsteps)];
    rewrite Hsteps.
  - split; [done|]. split; [|by exists 0].
    intros k s Hs. by exists s.
  - split; [apply apply_override_length|].
    split; [intros k s; apply apply_override_same|].
    exists (S t). intros k Hk. by apply apply_override_other.
Qed.

End ResolverFacts.

(** ** The legs of a route *)

Section LegFacts.
Context `{Double, Foreign}.
Context `{!DataFacade, !Guidance, !JsonFactory}.
Implicit Types (parameters : RouteParameters.t).
Implicit Types (phantoms : PhantomNodes) (path_data : list PathData).
Implicit Types (reversed_source reversed_target : bool).


End LegFacts.

(** ** The annotations of a leg *)

Section AnnotationFacts.
Context `{Double, Foreign}.
Context `{!DataFacade, !Guidance, !JsonFactory}.

(** C1 (where the source departs from it).  With the legacy flag set and
    the neutral [annotations_type], the request resolves to [All], as it
    does for [annotations_type = All]; but the annotation object of a leg
    has no [speed] entry, while with [annotations_type = All] it has one:
    line 366 tests [parameters.annotations_type] where the other five tests
    use [requested_annotations].  The other five entries are the same. *)
Theorem legacy_annotations_lack_speed geometries overview steps
    (leg_geometry : LegGeometry) :
  let legacy :=
    {| RouteParameters.geometries := geometries;
       RouteParameters.overview := overview;
       RouteParameters.steps := steps;
       RouteParameters.annotations := true;
       RouteParameters.annotations_type :=
         RouteParameters.AnnotationsType.None |} in
  let all :=
    {| RouteParameters.geometries := geometries;
       RouteParameters.overview := overview;
       RouteParameters.steps := steps;
       RouteParameters.annotations := true;
       RouteParameters.annotations_type :=
         RouteParameters.AnnotationsType.All |} in
  requested_annotations legacy = requested_annotations all
  ∧ make_annotation legacy leg_geometry !! "speed" = None
  ∧ make_annotation all leg_geometry !! "speed"
    = Some (GetAnnotations leg_geometry (λ anno, json.Number (speed_of anno)))
  ∧ make_annotation legacy leg_geometry
    = delete "speed" (make_annotation all leg_geometry)
  ∧ make_annotations legacy [leg_geometry]
    ≠ make_annotations all [leg_geometry].
Proof.
  intros legacy all.
  assert (make_annotation legacy leg_geometry !! "speed" = None) as Hlegacy.
  { unfold make_annotation, requested_annotations. simpl.
    by rewrite !lookup_insert_ne. }
  assert (make_annotation all leg_geometry !! "speed"
          = Some (GetAnnotations leg_geometry
                    (λ anno, json.Number (speed_of anno)))) as Hall.
  { unfold make_annotation, requested_annotations. simpl.
    rewrite !lookup_insert_ne by done. by rewrite lookup_insert_eq. }
  split; [done|]. split; [done|]. split; [done|]. split.
  - unfold make_annotation, requested_annotations. simpl.
    do 5 (rewrite delete_insert_ne by done).
    by rewrite delete_insert_eq, delete_empty.
  - intros Heq.
    pose proof (f_equal (λ l, default ∅ (head l)) Heq) as Heq'.
    change (make_annotation legacy leg_geometry
            = make_annotation all leg_geometry) in Heq'.
    rewrite Heq' in Hlegacy. congruence.
Qed.

End AnnotationFacts.

(** ** The response *)

Section ResponseFacts.
Context `{Double, Foreign}.
Context `{!DataFacade, !Guidance, !JsonFactory}.
Implicit Types (parameters : RouteParameters.t).
Implicit Types (raw : list InternalRouteResult) (jsRoutes : list json.Value).
Implicit Types (raw_routes : InternalManyRoutesResult).
Implicit Types (response : gmap string json.Value).

(** The loop over the raw routes appends the entries of the valid ones. *)
Lemma for_routes_valid parameters raw jsRoutes :
  for_routes parameters raw jsRoutes
  = (made ← mapM (route_entry parameters) (valid_routes raw);
     Some (jsRoutes ++ made)).
Proof.
  unfold valid_routes, route_entry. revert jsRoutes.
  induction raw as [|route raw IH]; intros jsRoutes; simpl.
  - by rewrite app_nil_r.
  - destruct (is_valid route) eqn:Hvalid; simpl.
    + rewrite filter_cons_True by exact Hvalid. simpl.
      destruct (MakeRoute _ _ _ _ _) as [made|]; simpl; [|done].
      rewrite IH. destruct (mapM _ _) as [rest|]; simpl; [|done].
      by rewrite <- app_assoc.
    + rewrite filter_cons_False by (simpl; congruence). apply IH.
Qed.

Lemma MakeResponse_valid parameters raw_routes response :
  MakeResponse parameters raw_routes response
  = (made ← mapM (route_entry parameters) (valid_routes (routes raw_routes));
     first ← routes raw_routes !! 0;
     Some (<["code" := json.String "Ok"]>
             (<["routes" := json.Array made]>
                (<["waypoints" :=
                    MakeWaypoints (segment_end_coordinates first)]>
                   response)))).
Proof.
  unfold MakeResponse. rewrite for_routes_valid.
  by destruct (mapM _ _).
Qed.

(** [MakeResponse] has a result when there is a raw route and a route can
    be assembled from every valid one. *)
Lemma MakeResponse_defined parameters raw_routes response :
  routes raw_routes ≠ [] →
  is_Some (mapM (route_entry parameters) (valid_routes (routes raw_routes))) →
  is_Some (MakeResponse parameters raw_routes response).
Proof.
  intros Hne [made Hmade]. rewrite MakeResponse_valid, Hmade. simpl.
  destruct (routes raw_routes); [done|]. by eexists.
Qed.

(** C6.  The [waypoints] of the response are made from the leg anchors of
    the first raw route, whichever routes are valid; when the first raw
    route is not valid, nothing else about it matters for the response to
    be made. *)
Theorem waypoints_of_first_route parameters raw_routes response first rest :
  routes raw_routes = first :: rest →
  (∀ response',
     MakeResponse parameters raw_routes response = Some response' →
     response' !! "waypoints"
     = Some (MakeWaypoints (segment_end_coordinates first)))
  ∧ (is_valid first = false →
     is_Some (mapM (route_entry parameters) (valid_routes rest)) →
     ∃ response',
       MakeResponse parameters raw_routes response = Some response'
       ∧ response' !! "waypoints"
         = Some (MakeWaypoints (segment_end_coordinates first))
       ∧ response' !! "routes"
         = json.Array <$> mapM (route_entry parameters) (valid_routes rest)).
Proof.
  intros Hroutes. rewrite MakeResponse_valid, Hroutes. split.
  - intros response' Hmade.
    destruct (mapM _ _) as [made|]; [|done]. simpl in Hmade.
    injection Hmade as <-.
    rewrite !lookup_insert_ne by done. by rewrite lookup_insert_eq.
  - intros Hinvalid [made Hmade].
    unfold valid_routes. rewrite filter_cons_False by (simpl; congruence).
    fold (valid_routes rest). rewrite Hmade. simpl.
    eexists. split; [done|]. split.
    + rewrite !lookup_insert_ne by done. by rewrite lookup_insert_eq.
    + rewrite lookup_insert_ne by done. by rewrite lookup_insert_eq.
Qed.

(** C7.  The [routes] of the response are the entries built from the raw
    routes whose validity flag is set, one for each, in their order; the
    routes whose flag is not set are passed over, whatever they hold. *)
Theorem routes_of_valid_raw_routes parameters raw_routes response :
  (∀ response',
     MakeResponse parameters raw_routes response = Some response' →
     ∃ made,
       response' !! "routes" = Some (json.Array made)
       ∧ length made = length (valid_routes (routes raw_routes))
       ∧ ∀ k route,
           valid_routes (routes raw_routes) !! k = Some route →
           ∃ entry, made !! k = Some entry
                    ∧ route_entry parameters route = Some entry)
  ∧ (routes raw_routes ≠ [] →
     (∀ route, route ∈ routes raw_routes → is_valid route = true →
        is_Some (route_entry parameters route)) →
     is_Some (MakeResponse parameters raw_routes response)).
Proof.
  split.
  - intros response'. rewrite MakeResponse_valid.
    destruct (mapM _ _) as [made|] eqn:Hmade; [|done]. simpl.
    destruct (routes raw_routes !! 0) as [first|]; [|done]. simpl.
    intros [= <-]. exists made. split.
    { rewrite lookup_insert_ne by done. by rewrite lookup_insert_eq. }
    split; [by apply length_mapM in Hmade|].
    intros k route Hroute. apply mapM_Some_1 in Hmade.
    destruct (Forall2_lookup_l _ _ _ _ _ Hmade Hroute) as (entry & ? & ?).
    by exists entry.
  - intros Hne Hbuilt. apply MakeResponse_defined; [done|].
    apply mapM_is_Some_2, Forall_forall. intros route Hin.
    apply list_elem_of_filter in Hin as [Hvalid Hin]. by apply Hbuilt.
Qed.

(** C10.  Whenever [MakeResponse] returns, the [code] of the response is
    ["Ok"]; in particular a collection of raw routes that has no valid
    route gets a response with no route and the code ["Ok"]. *)
Theorem code_is_always_Ok parameters raw_routes response :
  (∀ response',
     MakeResponse parameters raw_routes response = Some response' →
     response' !! "code" = Some (json.String "Ok"))
  ∧ (routes raw_routes ≠ [] →
     valid_routes (routes raw_routes) = [] →
     ∃ response',
       MakeResponse parameters raw_routes response = Some response'
       ∧ response' !! "routes" = Some (json.Array [])
       ∧ response' !! "code" = Some (json.String "Ok")).
Proof.
  rewrite MakeResponse_valid. split.
  - intros response'.
    destruct (mapM _ _) as [made|]; [|done]. simpl.
    destruct (routes raw_routes !! 0) as [first|]; [|done]. simpl.
    intros [= <-]. by rewrite lookup_insert_eq.
  - intros Hne ->. simpl. destruct (routes raw_routes) as [|first rest];
      [done|]. simpl. eexists. split; [done|]. split.
    + rewrite lookup_insert_ne by done. by rewrite lookup_insert_eq.
    + by rewrite lookup_insert_eq.
Qed.

End ResponseFacts.

(** ** The statements on the small network *)

Module Checks.
Import Example.

(** C2 fails as stated: the step that leaves from the [to_node] of [to_15]
    is 5 positions ahead of the first step of a leg of seven steps, the
    coordinate of its via node is in the geometry of the first step, and
    the override is skipped at the check of its [to_node]. *)
Lemma five_ahead_not_evaluated :
  from_id <$> leg_steps (start 7) !! (0 + 5) = Some (to_node to_15)
  ∧ via_search (steps_of 7) (geometry_of 7) to_15 0 5 = Some (Some 0)
  ∧ to_node_accepted (steps_of 7) phantoms false 0 to_15 = false
  ∧ check_override (start 7) phantoms false 0 to_15 = Some Skipped
  ∧ ¬ (check_override (start 7) phantoms false 0 to_15
       = via_verdict <$> via_search (steps_of 7) (geometry_of 7) to_15 0 5).
Proof. repeat split; try reflexivity. discriminate. Qed.

Lemma lookahead_window_reach_witness :
  leg_steps (start 7) !! (0 + 5) = Some (step_at 5)
  ∧ from_id (step_at 5) = to_node to_15
  ∧ check_override (start 7) phantoms false 0 to_15 = Some Skipped.
Proof.
  split; [reflexivity|]. split; [reflexivity|].
  destruct (lookahead_window_reach (start 7) phantoms false 0 to_15 [] 5
              (step_at 5)) as (_ & Hskip & _).
  - reflexivity.
  - reflexivity.
  - intros j s Hj Hs.
    do 5 (destruct j as [|j]; [injection Hs as <-; discriminate|]). lia.
  - apply Hskip. lia.
Defined.

Lemma first_match_stops_leg_witness :
  apply_manual_overrides phantoms false (steps_of 7) (geometry_of 7)
  = Some after_to_12
  ∧ ∃ j, ∀ k, k ≠ j → leg_steps after_to_12 !! k = steps_of 7 !! k.
Proof.
  split; [reflexivity|].
  apply (first_match_stops_leg phantoms false (steps_of 7) (geometry_of 7)
           after_to_12).
  reflexivity.
Defined.

Lemma end_of_route_fallback_witness :
  check_override (start 3) phantoms false 0 to_30 = Some (ViaMatch 1)
  ∧ check_override (start 3) phantoms false 0 to_15 = Some Skipped.
Proof.
  split.
  - destruct (end_of_route_fallback (start 3) phantoms false 0 to_30 [])
      as [Hvia _].
    + intros k step Hk Hstep.
      do 3 (destruct k as [|k]; [injection Hstep as <-; discriminate|]).
      discriminate Hstep.
    + rewrite Hvia; [reflexivity|]. split; [simpl; lia|reflexivity].
  - destruct (end_of_route_fallback (start 3) phantoms false 0 to_15 [])
      as [_ Hskip].
    + intros k step Hk Hstep.
      do 3 (destruct k as [|k]; [injection Hstep as <-; discriminate|]).
      discriminate Hstep.
    + apply Hskip. intros [_ Htarget]. discriminate Htarget.
Defined.

Lemma override_mutates_following_step_witness :
  ∃ st',
    for_overrides phantoms false 0 [to_12] (start 7) = Some st'
    ∧ done st' = true
    ∧ instruction ∘ maneuver <$> leg_steps st' !! 2
      = Some {| type := 9%N; direction_modifier := 2%N |}.
Proof.
  destruct (override_mutates_following_step (start 7) phantoms false 0 to_12
              [] 1 (step_at 1)) as (st' & Hfor & Hdone & _ & Hsteps).
  - reflexivity.
  - unfold max_steps_fwd, MAX_MANEUVER_DISTANCE. simpl. lia.
  - intros c Hc. assert (c = 0) as -> by lia.
    exists (step_at 0). split; [reflexivity|]. eexists. split; [reflexivity|].
    intros Hin. repeat (apply elem_of_cons in Hin as [Heq|Hin];
                        [discriminate Heq|]).
    inversion Hin.
  - reflexivity.
  - eexists. split; [reflexivity|]. apply list_elem_of_further, list_elem_of_here.
  - exists st'. split; [exact Hfor|]. split; [exact Hdone|].
    simpl in Hsteps. rewrite Hsteps. reflexivity.
Defined.

Lemma resolver_frame_witness :
  ∃ st',
    apply_manual_overrides phantoms false (steps_of 7) (geometry_of 7)
    = Some st'
    ∧ leg_geometry st' = geometry_of 7
    ∧ length (leg_steps st') = 7.
Proof.
  destruct (resolver_frame phantoms false (steps_of 7) (geometry_of 7))
    as [Hdefined Hframe].
  destruct Hdefined as [st' Hrun].
  - intros k step Hk.
    do 7 (destruct k as [|k]; [injection Hk as <-; simpl; lia|]).
    discriminate Hk.
  - exists st'. split; [exact Hrun|].
    destruct (Hframe st' Hrun) as (_ & _ & Hgeo & Hlen & _).
    split; [exact Hgeo|exact Hlen].
Defined.


Lemma waypoints_of_first_route_witness :
  is_valid (raw_route 3 false) = false
  ∧ ∃ response',
      MakeResponse (request true RouteParameters.AnnotationsType.None)
        two_routes ∅ = Some response'
      ∧ response' !! "waypoints" = Some (MakeWaypoints [phantoms]).
Proof.
  split; [reflexivity|].
  destruct (waypoints_of_first_route
              (request true RouteParameters.AnnotationsType.None) two_routes ∅
              (raw_route 3 false) [raw_route 2 true] eq_refl)
    as [_ Hinvalid].
  destruct Hinvalid as (response' & Hmade & Hwaypoints & _).
  - reflexivity.
  - eexists. vm_compute. reflexivity.
  - exists response'. split; [exact Hmade|exact Hwaypoints].
Defined.

Lemma routes_of_valid_raw_routes_witness :
  ∃ response' made,
    MakeResponse (request true RouteParameters.AnnotationsType.None)
      two_routes ∅ = Some response'
    ∧ response' !! "routes" = Some (json.Array made)
    ∧ length made = 1.
Proof.
  destruct (routes_of_valid_raw_routes
              (request true RouteParameters.AnnotationsType.None) two_routes ∅)
    as [Hroutes Hdefined].
  destruct Hdefined as [response' Hmade].
  - discriminate.
  - intros route Hin Hvalid.
    apply elem_of_cons in Hin as [->|Hin]; [discriminate Hvalid|].
    apply list_elem_of_singleton in Hin as ->.
    eexists. vm_compute. reflexivity.
  - destruct (Hroutes response' Hmade) as (made & Hlookup & Hlen & _).
    exists response', made. split; [exact Hmade|]. split; [exact Hlookup|].
    exact Hlen.
Defined.

Lemma code_is_always_Ok_witness :
  ∃ response',
    MakeResponse (request true RouteParameters.AnnotationsType.None)
      {| routes := [raw_route 3 false] |} ∅ = Some response'
    ∧ response' !! "routes" = Some (json.Array [])
    ∧ response' !! "code" = Some (json.String "Ok").
Proof.
  destruct (code_is_always_Ok
              (request true RouteParameters.AnnotationsType.None)
              {| routes := [raw_route 3 false] |} ∅) as [_ Hinvalid].
  apply Hinvalid; [discriminate|reflexivity].
Defined.

(** C1 on the small network: the route built for the legacy request and the
    route built for [annotations_type = All] differ. *)
Lemma legacy_route_differs :
  MakeRoute (request true RouteParameters.AnnotationsType.None)
    [phantoms] [[10%N; 11%N]] [false] [false]
  ≠ MakeRoute (request true RouteParameters.AnnotationsType.All)
      [phantoms] [[10%N; 11%N]] [false] [false].
Proof.
  intros Heq.
  apply (f_equal (λ made, made ≫= (.!! "legs"))) in Heq.
  vm_compute in Heq. discriminate Heq.
Qed.

End Checks.

(** ** More on the response *)

Section ResponseCoverage.
Context `{Double, Foreign}.
Context `{!DataFacade, !Guidance, !JsonFactory}.
Implicit Types (parameters : RouteParameters.t).
Implicit Types (raw_routes : InternalManyRoutesResult).
Implicit Types (response : gmap string json.Value) (key : string).

(** [MakeResponse] has a result exactly when the collection of raw routes is
    not empty and a route can be assembled from every raw route whose
    validity flag is set; what the other raw routes hold does not matter. *)
Theorem MakeResponse_result_iff parameters raw_routes response :
  is_Some (MakeResponse parameters raw_routes response)
  ↔ routes raw_routes ≠ []
    ∧ ∀ route, route ∈ routes raw_routes → is_valid route = true →
        is_Some (MakeRoute parameters (segment_end_coordinates route)
                   (unpacked_path_segments route)
                   (source_traversed_in_reverse route)
                   (target_traversed_in_reverse route)).
Proof.
  split.
  - rewrite MakeResponse_valid. intros [response' Hmade].
    destruct (mapM _ _) as [made|] eqn:Hmap; [|done]. simpl in Hmade.
    split; [by destruct (routes raw_routes)|].
    intros route Hin Hvalid.
    assert (is_Some (mapM (route_entry parameters)
                       (valid_routes (routes raw_routes)))) as Hsome
      by by eexists.
    apply mapM_is_Some_1 in Hsome. rewrite Forall_forall in Hsome.
    destruct (Hsome route) as [entry Hentry].
    { apply list_elem_of_filter. done. }
    simpl in Hentry. unfold route_entry in Hentry.
    destruct (MakeRoute _ _ _ _ _); [by eexists|done].
  - intros [Hne Hbuilt]. apply MakeResponse_defined; [done|].
    apply mapM_is_Some_2, Forall_forall. intros route Hin.
    apply list_elem_of_filter in Hin as [Hvalid Hin]. simpl.
    unfold route_entry. destruct (Hbuilt route Hin Hvalid) as [made ->].
    by eexists.
Qed.

(** [MakeResponse] writes the three keys [waypoints], [routes] and [code]
    of the response object it is given and leaves every other key of it as
    it was; what it writes does not depend on what the object held. *)
Theorem MakeResponse_other_keys parameters raw_routes response response' :
  MakeResponse parameters raw_routes response = Some response' →
  (∀ key, key ≠ "waypoints" → key ≠ "routes" → key ≠ "code" →
     response' !! key = response !! key)
  ∧ ∀ other,
      ∃ other',
        MakeResponse parameters raw_routes other = Some other'
        ∧ other' !! "waypoints" = response' !! "waypoints"
        ∧ other' !! "routes" = response' !! "routes"
        ∧ other' !! "code" = response' !! "code".
Proof.
  rewrite MakeResponse_valid.
  destruct (mapM _ _) as [made|] eqn:Hmade; [|done]. simpl.
  destruct (routes raw_routes !! 0) as [first|] eqn:Hfirst; [|done]. simpl.
  intros [= <-]. split.
  - intros key Hw Hr Hc. by rewrite !lookup_insert_ne.
  - intros other. rewrite MakeResponse_valid, Hmade. simpl.
    rewrite Hfirst. simpl. eexists. split; [done|].
    rewrite !lookup_insert_eq.
    rewrite !(lookup_insert_ne _ "code" "routes") by done.
    rewrite !lookup_insert_eq.
    rewrite !(lookup_insert_ne _ "code" "waypoints") by done.
    rewrite !(lookup_insert_ne _ "routes" "waypoints") by done.
    by rewrite !lookup_insert_eq.
Qed.


End ResponseCoverage.

(** ** More on the annotations *)

Section AnnotationCoverage.
Context `{Double, Foreign}.
Context `{!DataFacade, !Guidance, !JsonFactory}.
Implicit Types (parameters : RouteParameters.t) (key : string).
Implicit Types (leg_geometry : LegGeometry).
Implicit Types (annotation : gmap string json.Value).

Lemma lookup_guarded_insert_ne (flag : bool) key key' value annotation :
  key ≠ key' →
  (if flag then <[key' := value]> annotation else annotation) !! key
  = annotation !! key.
Proof. intros Hne. destruct flag; [|done]. by rewrite lookup_insert_ne. Qed.

Lemma lookup_guarded_insert_eq (flag : bool) key value annotation :
  annotation !! key = None →
  (if flag then <[key := value]> annotation else annotation) !! key
  = if flag then Some value else None.
Proof. intros Hnone. destruct flag; [|done]. by rewrite lookup_insert_eq. Qed.

(** The entry of an annotation object under each of the six keys. *)
Lemma make_annotation_lookup parameters leg_geometry :
  let flag := RouteParameters.AnnotationsType.and in
  let requested := requested_annotations parameters in
  let entry (set : bool) (value : json.Value) :=
    if set then Some value else None in
  make_annotation parameters leg_geometry !! "speed"
  = entry (flag (RouteParameters.annotations_type parameters)
             RouteParameters.AnnotationsType.Speed)
      (GetAnnotations leg_geometry (λ anno, json.Number (speed_of anno)))
  ∧ make_annotation parameters leg_geometry !! "duration"
    = entry (flag requested RouteParameters.AnnotationsType.Duration)
        (GetAnnotations leg_geometry (λ anno, json.Number (duration anno)))
  ∧ make_annotation parameters leg_geometry !! "distance"
    = entry (flag requested RouteParameters.AnnotationsType.Distance)
        (GetAnnotations leg_geometry (λ anno, json.Number (distance anno)))
  ∧ make_annotation parameters leg_geometry !! "weight"
    = entry (flag requested RouteParameters.AnnotationsType.Weight)
        (GetAnnotations leg_geometry (λ anno, json.Number (weight anno)))
  ∧ make_annotation parameters leg_geometry !! "datasources"
    = entry (flag requested RouteParameters.AnnotationsType.Datasources)
        (GetAnnotations leg_geometry
           (λ anno, json.Number (double_of_uint (datasource anno))))
  ∧ make_annotation parameters leg_geometry !! "nodes"
    = entry (flag requested RouteParameters.AnnotationsType.Nodes)
        (json.Array ((λ node_id, json.Number (double_of_uint node_id))
                     <$> osm_node_ids leg_geometry))
  ∧ ∀ key, key ∉ annotation_keys →
      make_annotation parameters leg_geometry !! key = None.
Proof.
  intros flag requested entry. unfold make_annotation.
  fold flag. fold requested.
  repeat split.
  - rewrite !lookup_guarded_insert_ne by done.
    by rewrite lookup_guarded_insert_eq.
  - rewrite !lookup_guarded_insert_ne by done.
    rewrite lookup_guarded_insert_eq; [done|].
    by rewrite lookup_guarded_insert_ne.
  - rewrite !lookup_guarded_insert_ne by done.
    rewrite lookup_guarded_insert_eq; [done|].
    by rewrite !lookup_guarded_insert_ne.
  - rewrite !lookup_guarded_insert_ne by done.
    rewrite lookup_guarded_insert_eq; [done|].
    by rewrite !lookup_guarded_insert_ne.
  - rewrite !lookup_guarded_insert_ne by done.
    rewrite lookup_guarded_insert_eq; [done|].
    by rewrite !lookup_guarded_insert_ne.
  - rewrite lookup_guarded_insert_eq; [done|].
    by rewrite !lookup_guarded_insert_ne.
  - intros key Hkey. unfold annotation_keys in Hkey.
    rewrite !not_elem_of_cons in Hkey.
    destruct Hkey as (? & ? & ? & ? & ? & ? & _).
    by rewrite !lookup_guarded_insert_ne.
Qed.

(** Every entry of an annotation object is an array: under [nodes] it has
    one element for each node identifier of the leg, under every other key
    one element for each annotation of the leg's geometry. *)
Theorem annotation_arrays_aligned parameters leg_geometry key value :
  make_annotation parameters leg_geometry !! key = Some value →
  ∃ entries,
    value = json.Array entries
    ∧ length entries
      = if decide (key = "nodes")
        then length (osm_node_ids leg_geometry)
        else length (annotations leg_geometry).
Proof.
  pose proof (make_annotation_lookup parameters leg_geometry)
    as (Hspeed & Hduration & Hdistance & Hweight & Hdatasources & Hnodes
        & Hother).
  simpl in *. intros Hvalue.
  destruct (decide (key ∈ annotation_keys)) as [Hkey|Hkey];
    [|by rewrite Hother in Hvalue].
  unfold annotation_keys in Hkey. rewrite !elem_of_cons in Hkey.
  destruct Hkey as [->|[->|[->|[->|[->|[->|Hkey]]]]]]; [..|by inversion Hkey].
  all: match goal with
       | Heq : make_annotation _ _ !! ?k = _,
         Hv : make_annotation _ _ !! ?k = Some _ |- _ =>
           rewrite Heq in Hv;
           match type of Hv with
           | (if ?set then _ else _) = _ => destruct set; [|done]
           end;
           injection Hv as <-; eexists; split; [done|];
           by rewrite length_fmap
       end.
Qed.

(** An annotation object has a key exactly when the flag of the key is set:
    in the requested flags for [duration], [distance], [weight],
    [datasources] and [nodes], in [parameters.annotations_type] for
    [speed]; it has no other key. *)
Theorem annotation_keys_by_flag parameters leg_geometry :
  let flag := RouteParameters.AnnotationsType.and in
  let requested := requested_annotations parameters in
  let has key := is_Some (make_annotation parameters leg_geometry !! key) in
  (has "speed"
   ↔ flag (RouteParameters.annotations_type parameters)
       RouteParameters.AnnotationsType.Speed = true)
  ∧ (has "duration"
     ↔ flag requested RouteParameters.AnnotationsType.Duration = true)
  ∧ (has "distance"
     ↔ flag requested RouteParameters.AnnotationsType.Distance = true)
  ∧ (has "weight"
     ↔ flag requested RouteParameters.AnnotationsType.Weight = true)
  ∧ (has "datasources"
     ↔ flag requested RouteParameters.AnnotationsType.Datasources = true)
  ∧ (has "nodes"
     ↔ flag requested RouteParameters.AnnotationsType.Nodes = true)
  ∧ ∀ key, has key → key ∈ annotation_keys.
Proof.
  intros flag requested has. unfold has.
  pose proof (make_annotation_lookup parameters leg_geometry)
    as (Hspeed & Hduration & Hdistance & Hweight & Hdatasources & Hnodes
        & Hother).
  simpl in *.
  rewrite Hspeed, Hduration, Hdistance, Hweight, Hdatasources, Hnodes.
  fold flag. fold requested.
  assert (∀ (set : bool) (value : json.Value),
            is_Some (if set then Some value else None) ↔ set = true)
    as Hentry.
  { intros [|] value; (split; [intros [? ?]|intros ?]); try done; by eexists. }
  rewrite !Hentry. repeat split; try done.
  intros key [value Hvalue].
  destruct (decide (key ∈ annotation_keys)) as [|Hkey]; [done|].
  by rewrite Hother in Hvalue.
Qed.

(** The requested flags are empty exactly when the request has neither the
    legacy flag nor a flag in [annotations_type]; then no annotation object
    is made, and otherwise there is one for each leg, in the order of the
    legs. *)
Theorem annotations_one_per_leg parameters
    (leg_geometries : list LegGeometry) :
  (requested_annotations parameters = RouteParameters.AnnotationsType.None
   ↔ RouteParameters.annotations parameters = false
     ∧ RouteParameters.annotations_type parameters
       = RouteParameters.AnnotationsType.None)
  ∧ (requested_annotations parameters = RouteParameters.AnnotationsType.None →
     make_annotations parameters leg_geometries = [])
  ∧ (requested_annotations parameters ≠ RouteParameters.AnnotationsType.None →
     length (make_annotations parameters leg_geometries)
     = length leg_geometries
     ∧ ∀ idx leg_geometry,
         leg_geometries !! idx = Some leg_geometry →
         make_annotations parameters leg_geometries !! idx
         = Some (make_annotation parameters leg_geometry)).
Proof.
  split; [|split].
  - unfold requested_annotations.
    destruct (RouteParameters.annotations parameters); simpl.
    + destruct (bool_decide _) eqn:Htype.
      * split; [done|by intros [? _]].
      * apply bool_decide_eq_false in Htype. split; [done|by intros [? _]].
    + split; [done|by intros [_ ?]].
  - intros Hnone. unfold make_annotations. by rewrite decide_False by auto.
  - intros Hsome. unfold make_annotations. rewrite decide_True by done.
    split; [by rewrite length_fmap|].
    intros idx leg_geometry Hleg. by rewrite list_lookup_fmap, Hleg.
Qed.

End AnnotationCoverage.

(** ** Which override the resolver applies *)

Section ResolverCoverage.
Context `{Double, Foreign}.
Context `{!DataFacade, !Guidance, !JsonFactory}.
Implicit Types (steps : list RouteStep) (geometry : LegGeometry).
Implicit Types (o : ManeuverOverride) (st : Resolver) (events : list Event).
Implicit Types (phantoms : PhantomNodes) (reversed_target : bool).

Lemma for_steps_without_overrides phantoms reversed_target n i st :
  (∀ step, step ∈ leg_steps st → GetOverridesThatStartAt (from_id step) = []) →
  i + n ≤ length (leg_steps st) →
  for_steps phantoms reversed_target n i st
  = Some {| leg_steps := leg_steps st; leg_geometry := leg_geometry st;
            done := done st;
            trace := trace st ++ (StepVisited <$> seq i n) |}.
Proof.
  intros Hnone. revert i st Hnone.
  induction n as [|n IH]; intros i st Hnone Hlen; simpl.
  - rewrite app_nil_r. by destruct st.
  - destruct (lookup_lt_is_Some_2 (leg_steps st) i) as [current_step Hcur];
      [lia|].
    rewrite Hcur. simpl.
    rewrite (Hnone current_step) by (by eapply list_elem_of_lookup_2).
    rewrite IH; [|done|simpl; lia]. simpl. by rewrite <- app_assoc.
Qed.

(** When the facade has no override that starts at a step of the leg, the
    resolver visits every step once, in order, and returns the steps and
    the geometry as given with [done] unset; no geometry range is formed,
    so there is a result whatever the ranges of the steps are. *)
Theorem no_overrides_no_change phantoms reversed_target steps geometry :
  (∀ step, step ∈ steps → GetOverridesThatStartAt (from_id step) = []) →
  apply_manual_overrides phantoms reversed_target steps geometry
  = Some {| leg_steps := steps; leg_geometry := geometry; done := false;
            trace := StepVisited <$> seq 0 (length steps) |}.
Proof.
  intros Hnone. unfold apply_manual_overrides.
  by rewrite for_steps_without_overrides.
Qed.

Lemma for_overrides_cases phantoms reversed_target i os st st' :
  for_overrides phantoms reversed_target i os st = Some st' →
  leg_geometry st' = leg_geometry st
  ∧ ((done st' = done st
      ∧ leg_steps st' = leg_steps st
      ∧ ∀ o, o ∈ os →
          passes_over (leg_steps st) (leg_geometry st) phantoms
            reversed_target i o)
     ∨ (done st' = true
        ∧ ∃ pre o post t,
            os = pre ++ o :: post
            ∧ (∀ o', o' ∈ pre →
                 passes_over (leg_steps st) (leg_geometry st) phantoms
                   reversed_target i o')
            ∧ check_override st phantoms reversed_target i o
              = Some (ViaMatch t)
            ∧ leg_steps st' = apply_override o t (leg_steps st))).
Proof.
  revert st. induction os as [|o os IH]; intros st Hrun; simpl in Hrun.
  - injection Hrun as <-. split; [done|]. left. split; [done|].
    split; [done|]. intros o Ho. inversion Ho.
  - rewrite check_override_log in Hrun.
    destruct (check_override st phantoms reversed_target i o)
      as [verdict|] eqn:Hcheck; [|done].
    simpl in Hrun.
    assert (verdict = Skipped ∨ verdict = NoViaMatch →
            passes_over (leg_steps st) (leg_geometry st) phantoms
              reversed_target i o) as Hpass.
    { unfold passes_over.
      change (check_override (resolver_start (leg_steps st) (leg_geometry st))
                phantoms reversed_target i o)
        with (check_override st phantoms reversed_target i o).
      rewrite Hcheck. by intros [->| ->]; [left|right]. }
    assert (verdict = Skipped ∨ verdict = NoViaMatch →
            for_overrides phantoms reversed_target i os
              (log (OverrideVisited i o) st) = Some st' →
            leg_geometry st' = leg_geometry st
            ∧ ((done st' = done st
                ∧ leg_steps st' = leg_steps st
                ∧ ∀ o0, o0 ∈ o :: os →
                    passes_over (leg_steps st) (leg_geometry st) phantoms
                      reversed_target i o0)
               ∨ (done st' = true
                  ∧ ∃ pre o0 post t,
                      o :: os = pre ++ o0 :: post
                      ∧ (∀ o', o' ∈ pre →
                           passes_over (leg_steps st) (leg_geometry st)
                             phantoms reversed_target i o')
                      ∧ check_override st phantoms reversed_target i o0
                        = Some (ViaMatch t)
                      ∧ leg_steps st' = apply_override o0 t (leg_steps st))))
      as Hnext.
    { intros Hverdict [Hgeo Hcases]%IH. split; [done|]. simpl in Hcases.
      destruct Hcases as [(Hdone & Hsteps & Hall)
                         |(Hdone & pre & o0 & post & t & -> & Hpre & Ho0
                           & Hsteps)].
      - left. split; [done|]. split; [done|].
        intros o0 [->|Hin]%elem_of_cons; auto.
      - right. split; [done|]. exists (o :: pre), o0, post, t.
        split; [done|]. split; [|done].
        intros o' [->|Hin]%elem_of_cons; auto. }
    destruct verdict as [| |t]; [apply Hnext; auto..|].
    injection Hrun as <-. split; [done|]. right. split; [done|].
    exists [], o, os, t. split; [done|]. split; [|done].
    intros o' Ho'. inversion Ho'.
Qed.

Lemma for_steps_cases phantoms reversed_target n i0 st st' :
  for_steps phantoms reversed_target n i0 st = Some st' →
  done st = false →
  leg_geometry st' = leg_geometry st
  ∧ ((done st' = false
      ∧ leg_steps st' = leg_steps st
      ∧ ∀ i step o,
          i0 ≤ i < i0 + n → leg_steps st !! i = Some step →
          o ∈ GetOverridesThatStartAt (from_id step) →
          passes_over (leg_steps st) (leg_geometry st) phantoms
            reversed_target i o)
     ∨ (done st' = true
        ∧ ∃ i step pre o post t,
            i0 ≤ i < i0 + n
            ∧ leg_steps st !! i = Some step
            ∧ GetOverridesThatStartAt (from_id step) = pre ++ o :: post
            ∧ (∀ i' step' o',
                 i0 ≤ i' < i → leg_steps st !! i' = Some step' →
                 o' ∈ GetOverridesThatStartAt (from_id step') →
                 passes_over (leg_steps st) (leg_geometry st) phantoms
                   reversed_target i' o')
            ∧ (∀ o', o' ∈ pre →
                 passes_over (leg_steps st) (leg_geometry st) phantoms
                   reversed_target i o')
            ∧ check_override st phantoms reversed_target i o
              = Some (ViaMatch t)
            ∧ leg_steps st' = apply_override o t (leg_steps st))).
Proof.
  revert i0 st. induction n as [|n IH]; intros i0 st Hrun Hdone0;
    simpl in Hrun.
  - injection Hrun as <-. split; [done|]. left. split; [done|].
    split; [done|]. intros i step o Hi. lia.
  - destruct (leg_steps st !! i0) as [current_step|] eqn:Hcur; [|done].
    simpl in Hrun.
    destruct (GetOverridesThatStartAt (from_id current_step))
      as [|o1 os] eqn:Hos.
    + apply IH in Hrun as [Hgeo Hcases]; [|done]. split; [done|].
      simpl in Hcases.
      destruct Hcases as [(Hdone & Hsteps & Hall)
                         |(Hdone & i & step & pre & o & post & t & Hi & Hstep
                           & Hlist & Hearlier & Hpre & Hcheck & Hsteps)].
      * left. split; [done|]. split; [done|]. intros i step o Hi Hstep Ho.
        destruct (decide (i = i0)) as [->|Hne].
        -- rewrite Hcur in Hstep. injection Hstep as <-.
           rewrite Hos in Ho. inversion Ho.
        -- apply (Hall i step o); [lia|done..].
      * right. split; [done|]. exists i, step, pre, o, post, t.
        split; [lia|]. do 2 (split; [done|]). split; [|done].
        intros i' step' o' Hi' Hstep' Ho'.
        destruct (decide (i' = i0)) as [->|Hne].
        -- rewrite Hcur in Hstep'. injection Hstep' as <-.
           rewrite Hos in Ho'. inversion Ho'.
        -- apply (Hearlier i' step' o'); [lia|done..].
    + destruct (for_overrides phantoms reversed_target i0 (o1 :: os)
                  (log (StepVisited i0) st)) as [st1|] eqn:Hfor; [|done].
      simpl in Hrun.
      apply for_overrides_cases in Hfor as [Hgeo1 Hcases1].
      simpl in Hgeo1, Hcases1.
      destruct Hcases1 as [(Hdone1 & Hsteps1 & Hall1)
                          |(Hdone1 & pre & o & post & t & Hlist & Hpre
                            & Hcheck & Hsteps1)].
      * rewrite Hdone1, Hdone0 in Hrun.
        apply IH in Hrun as [Hgeo Hcases]; [|congruence].
        rewrite Hgeo1, Hsteps1 in Hcases. rewrite Hgeo1 in Hgeo.
        split; [done|].
        destruct Hcases as [(Hdone & Hsteps & Hall)
                           |(Hdone & i & step & pre & o & post & t & Hi
                             & Hstep & Hlist & Hearlier & Hpre & Hcheck
                             & Hsteps)].
        -- left. split; [done|]. split; [done|].
           intros i step o Hi Hstep Ho.
           destruct (decide (i = i0)) as [->|Hne].
           ++ rewrite Hcur in Hstep. injection Hstep as <-.
              rewrite Hos in Ho. by apply Hall1.
           ++ apply (Hall i step o); [lia|done..].
        -- right. split; [done|]. exists i, step, pre, o, post, t.
           split; [lia|]. do 2 (split; [done|]).
           split; [|split; [done|]].
           ++ intros i' step' o' Hi' Hstep' Ho'.
              destruct (decide (i' = i0)) as [->|Hne].
              ** rewrite Hcur in Hstep'. injection Hstep' as <-.
                 rewrite Hos in Ho'. by apply Hall1.
              ** apply (Hearlier i' step' o'); [lia|done..].
           ++ split; [|done].
              change (check_override st1 phantoms reversed_target i o)
                with (check_override
                        (resolver_start (leg_steps st1) (leg_geometry st1))
                        phantoms reversed_target i o) in Hcheck.
              by rewrite Hgeo1, Hsteps1 in Hcheck.
      * rewrite Hdone1 in Hrun. injection Hrun as <-.
        split; [done|]. right. split; [done|].
        exists i0, current_step, pre, o, post, t.
        split; [lia|]. split; [done|]. split; [by rewrite Hos|].
        split; [intros i' ? ? Hi'; lia|]. done.
Qed.

Lemma passes_over_check st phantoms reversed_target i o :
  passes_over (leg_steps st) (leg_geometry st) phantoms reversed_target i o →
  check_override st phantoms reversed_target i o = Some Skipped
  ∨ check_override st phantoms reversed_target i o = Some NoViaMatch.
Proof. done. Qed.

Lemma for_overrides_pass phantoms reversed_target i os st :
  (∀ o, o ∈ os →
     passes_over (leg_steps st) (leg_geometry st) phantoms reversed_target
       i o) →
  ∃ st',
    for_overrides phantoms reversed_target i os st = Some st'
    ∧ done st' = done st
    ∧ leg_steps st' = leg_steps st
    ∧ leg_geometry st' = leg_geometry st.
Proof.
  revert st. induction os as [|o os IH]; intros st Hall; simpl.
  - by exists st.
  - rewrite check_override_log.
    destruct (passes_over_check st phantoms reversed_target i o) as [-> | ->];
      [apply Hall; left|..]; simpl;
      (destruct (IH (log (OverrideVisited i o) st))
         as (st' & Hrun & Hdone & Hsteps & Hgeo);
       [intros o' Ho'; apply Hall; by right|by exists st']).
Qed.

Lemma for_overrides_hit phantoms reversed_target i pre o post t st :
  (∀ o', o' ∈ pre →
     passes_over (leg_steps st) (leg_geometry st) phantoms reversed_target
       i o') →
  check_override st phantoms reversed_target i o = Some (ViaMatch t) →
  ∃ st',
    for_overrides phantoms reversed_target i (pre ++ o :: post) st = Some st'
    ∧ done st' = true
    ∧ leg_steps st' = apply_override o t (leg_steps st)
    ∧ leg_geometry st' = leg_geometry st.
Proof.
  revert st. induction pre as [|o1 pre IH]; intros st Hall Hcheck; simpl.
  - rewrite check_override_log, Hcheck. simpl. by eexists.
  - rewrite check_override_log.
    destruct (passes_over_check st phantoms reversed_target i o1) as [-> | ->];
      [apply Hall; left|..]; simpl;
      (destruct (IH (log (OverrideVisited i o1) st))
         as (st' & Hrun & Hdone & Hsteps & Hgeo);
       [intros o' Ho'; apply Hall; by right|done|by exists st']).
Qed.

Lemma for_steps_hit phantoms reversed_target n i0 st i step pre o post t :
  done st = false →
  i0 ≤ i < i0 + n →
  leg_steps st !! i = Some step →
  GetOverridesThatStartAt (from_id step) = pre ++ o :: post →
  (∀ i' step' o',
     i0 ≤ i' < i → leg_steps st !! i' = Some step' →
     o' ∈ GetOverridesThatStartAt (from_id step') →
     passes_over (leg_steps st) (leg_geometry st) phantoms reversed_target
       i' o') →
  (∀ o', o' ∈ pre →
     passes_over (leg_steps st) (leg_geometry st) phantoms reversed_target
       i o') →
  check_override st phantoms reversed_target i o = Some (ViaMatch t) →
  ∃ st',
    for_steps phantoms reversed_target n i0 st = Some st'
    ∧ done st' = true
    ∧ leg_steps st' = apply_override o t (leg_steps st)
    ∧ leg_geometry st' = leg_geometry st.
Proof.
  revert i0 st.
  induction n as [|n IH];
    intros i0 st Hdone0 Hi Hstep Hlist Hearlier Hpre Hcheck; [lia|].
  simpl. destruct (decide (i0 = i)) as [->|Hne].
  - rewrite Hstep. simpl. rewrite Hlist.
    destruct (for_overrides_hit phantoms reversed_target i pre o post t
                (log (StepVisited i) st) Hpre Hcheck)
      as (st' & Hrun & Hdone & Hsteps & Hgeo).
    rewrite Hrun. simpl. rewrite Hdone.
    destruct (pre ++ o :: post) eqn:Happ; [by destruct pre|].
    by exists st'.
  - destruct (lookup_lt_is_Some_2 (leg_steps st) i0) as [current_step Hcur].
    { apply lookup_lt_Some in Hstep. lia. }
    rewrite Hcur. simpl.
    destruct (for_overrides_pass phantoms reversed_target i0
                (GetOverridesThatStartAt (from_id current_step))
                (log (StepVisited i0) st))
      as (st1 & Hrun1 & Hdone1 & Hsteps1 & Hgeo1).
    { intros o' Ho'. apply (Hearlier i0 current_step o'); [lia|done..]. }
    simpl in Hdone1, Hsteps1, Hgeo1.
    destruct (IH (S i0) st1) as (st' & Hrun & Hdone & Hsteps & Hgeo).
    + congruence.
    + lia.
    + by rewrite Hsteps1.
    + done.
    + rewrite Hsteps1, Hgeo1. intros i' step' o' Hi'.
      apply Hearlier. lia.
    + by rewrite Hsteps1, Hgeo1.
    + change (check_override st1 phantoms reversed_target i o)
        with (check_override
                (resolver_start (leg_steps st1) (leg_geometry st1))
                phantoms reversed_target i o).
      by rewrite Hsteps1, Hgeo1.
    + rewrite Hsteps1 in Hsteps. rewrite Hgeo1 in Hgeo.
      destruct (GetOverridesThatStartAt (from_id current_step)) as [|o1 os].
      * simpl in Hrun1. injection Hrun1 as <-. by exists st'.
      * rewrite Hrun1. simpl. rewrite Hdone1. simpl. rewrite Hdone0.
        by exists st'.
Qed.

(** The resolver applies the first override that reaches its application,
    going through the steps in order and, at a step, through the overrides
    in the order of the facade: when every override before it is passed
    over, the steps returned are the given ones after that one application
    and [done] is set. *)
Theorem first_match_is_applied phantoms reversed_target steps geometry
    i step pre o post t :
  steps !! i = Some step →
  GetOverridesThatStartAt (from_id step) = pre ++ o :: post →
  (∀ i' step' o',
     i' < i → steps !! i' = Some step' →
     o' ∈ GetOverridesThatStartAt (from_id step') →
     passes_over steps geometry phantoms reversed_target i' o') →
  (∀ o', o' ∈ pre → passes_over steps geometry phantoms reversed_target i o') →
  check_override (resolver_start steps geometry) phantoms reversed_target i o
  = Some (ViaMatch t) →
  ∃ st',
    apply_manual_overrides phantoms reversed_target steps geometry = Some st'
    ∧ done st' = true
    ∧ leg_steps st' = apply_override o t steps
    ∧ leg_geometry st' = geometry.
Proof.
  intros Hstep Hlist Hearlier Hpre Hcheck.
  apply (for_steps_hit phantoms reversed_target (length steps) 0
           (resolver_start steps geometry) i step pre o post t);
    try done.
  - apply lookup_lt_Some in Hstep. lia.
  - intros i' step' o' Hi'. apply Hearlier. lia.
Qed.

(** What the resolver returns tells what it found.  With [done] unset,
    every override of every step was passed over and the steps are as
    given.  With [done] set, the steps are the given ones after the
    application of one override [o] that the facade returned for a step [i],
    every override before it having been passed over; the step that holds
    its via node is at most 4 positions after [i], so the step that is
    written is between 1 and 5 positions after [i], and the first step of
    the leg is never written. *)
Theorem applied_override_origin phantoms reversed_target steps geometry st' :
  apply_manual_overrides phantoms reversed_target steps geometry = Some st' →
  (done st' = false →
   leg_steps st' = steps
   ∧ ∀ i step o,
       steps !! i = Some step →
       o ∈ GetOverridesThatStartAt (from_id step) →
       passes_over steps geometry phantoms reversed_target i o)
  ∧ (done st' = true →
     ∃ i step pre o post t,
       steps !! i = Some step
       ∧ GetOverridesThatStartAt (from_id step) = pre ++ o :: post
       ∧ (∀ i' step' o',
            i' < i → steps !! i' = Some step' →
            o' ∈ GetOverridesThatStartAt (from_id step') →
            passes_over steps geometry phantoms reversed_target i' o')
       ∧ (∀ o', o' ∈ pre →
            passes_over steps geometry phantoms reversed_target i o')
       ∧ check_override (resolver_start steps geometry) phantoms
           reversed_target i o = Some (ViaMatch t)
       ∧ i ≤ t < i + 5
       ∧ leg_steps st' = apply_override o t steps
       ∧ leg_steps st' !! 0 = steps !! 0).
Proof.
  intros Hrun.
  apply (for_steps_cases phantoms reversed_target (length steps) 0
           (resolver_start steps geometry) st') in Hrun as [_ Hcases];
    [|done].
  simpl in Hcases. split.
  - intros Hdone.
    destruct Hcases as [(_ & Hsteps & Hall)|(Hdone' & _)]; [|congruence].
    split; [done|]. intros i step o Hstep Ho. apply (Hall i step o);
      [|done..]. apply lookup_lt_Some in Hstep. lia.
  - intros Hdone.
    destruct Hcases as [(Hdone' & _)
                       |(_ & i & step & pre & o & post & t & Hi & Hstep
                         & Hlist & Hearlier & Hpre & Hcheck & Hsteps)];
      [congruence|].
    exists i, step, pre, o, post, t.
    do 2 (split; [done|]).
    split; [intros i' step' o' Hi'; apply Hearlier; lia|].
    do 2 (split; [done|]).
    split; [|split; [done|]].
    + unfold check_override in Hcheck. simpl in Hcheck.
      destruct (to_node_accepted _ _ _ _ _); [|done].
      destruct (via_search _ _ _ _ _) as [[t'|]|] eqn:Hsearch; [|done..].
      injection Hcheck as ->.
      apply via_search_inv in Hsearch as (Ht & _).
      pose proof (MAX_MANEUVER_DISTANCE_le steps i). lia.
    + rewrite Hsteps. by apply apply_override_other.
Qed.

End ResolverCoverage.

(** ** More on the route *)

Section RouteCoverage.
Context `{Double, Foreign}.
Context `{!DataFacade, !Guidance, !JsonFactory}.
Implicit Types (parameters : RouteParameters.t).
Implicit Types (steps : list RouteStep) (geometry : LegGeometry).
Implicit Types (legs : list RouteLeg) (leg_geometries : list LegGeometry).
Implicit Types (phantoms : PhantomNodes) (path_data : list PathData).
Implicit Types (reversed_source reversed_target : bool).

Lemma mapM_fmap_eq {A B C : Type} (f : A → option B) (g : A → C)
    (l1 l2 : list A) :
  (∀ x y, g x = g y → f x = f y) →
  g <$> l1 = g <$> l2 → mapM f l1 = mapM f l2.
Proof.
  intros Hfg. revert l2. induction l1 as [|x l1 IH]; intros [|y l2] Heq;
    try done.
  injection Heq as Hxy Heq. simpl. rewrite (Hfg x y Hxy).
  by rewrite (IH l2 Heq).
Qed.

Lemma fmap_apply_override {C : Type} (g : RouteStep → C) o t steps :
  (∀ step, g (override_instruction o step) = g step) →
  g <$> apply_override o t steps = g <$> steps.
Proof.
  intros Hg. unfold apply_override.
  destruct (steps !! S t) as [step|] eqn:Hstep; [|done].
  rewrite list_fmap_insert, Hg. apply list_insert_id.
  by rewrite list_lookup_fmap, Hstep.
Qed.

Lemma ranges_ok_apply_override o t steps geometry :
  ranges_ok steps geometry → ranges_ok (apply_override o t steps) geometry.
Proof.
  intros Hok k step' Hstep'.
  destruct (lookup_lt_is_Some_2 steps k) as [step Hstep].
  { apply lookup_lt_Some in Hstep'. by rewrite apply_override_length in Hstep'. }
  destruct (apply_override_same o t steps k step Hstep)
    as (step'' & Hstep'' & _ & Hbegin & Hend & _).
  rewrite Hstep'' in Hstep'. injection Hstep' as ->.
  rewrite Hbegin, Hend. by apply (Hok k).
Qed.

(** The override resolver changes no output geometry: the edge-based nodes
    the steps leave from and the encoded geometries of the steps are those
    of the steps it was given, and ranges that lie within the locations
    still do. *)
Theorem overrides_keep_step_geometries parameters phantoms reversed_target
    steps geometry st' :
  apply_manual_overrides phantoms reversed_target steps geometry = Some st' →
  from_id <$> leg_steps st' = from_id <$> steps
  ∧ mapM (step_geometry parameters (leg_geometry st')) (leg_steps st')
    = mapM (step_geometry parameters geometry) steps
  ∧ (ranges_ok steps geometry →
     ranges_ok (leg_steps st') (leg_geometry st')).
Proof.
  intros [Hgeo Hcases]%apply_manual_overrides_outcome. rewrite Hgeo.
  destruct Hcases as [(_ & -> & _)|(_ & _ & _ & o & t & _ & _ & _ & ->)];
    [done|].
  split; [by apply fmap_apply_override|]. split.
  - apply (mapM_fmap_eq _ (λ step, (geometry_begin step, geometry_end step))).
    + intros x y [= Hb He]. unfold step_geometry. by rewrite Hb, He.
    + by apply fmap_apply_override.
  - apply ranges_ok_apply_override.
Qed.

Lemma make_step_geometries_groups parameters legs leg_geometries acc :
  length legs ≤ length leg_geometries →
  make_step_geometries parameters legs leg_geometries acc
  = (groups ← mapM (λ pair, mapM (step_geometry parameters pair.2)
                              (steps pair.1))
                (zip legs leg_geometries);
     Some (acc ++ concat groups)).
Proof.
  revert leg_geometries acc.
  induction legs as [|leg legs IH]; intros [|leg_geometry leg_geometries] acc
    Hlen; simpl in *; try lia.
  - by rewrite app_nil_r.
  - by rewrite app_nil_r.
  - destruct (mapM (step_geometry parameters leg_geometry) (steps leg))
      as [encoded|]; [|done]. simpl.
    rewrite IH by lia.
    destruct (mapM _ (zip legs leg_geometries)) as [groups|]; [|done]. simpl.
    by rewrite <- app_assoc.
Qed.

(** The loop that fills [step_geometries] returns, for legs that each have
    their geometry, the encoded geometries of the steps of the first leg,
    then those of the second, and so on: one for each step. *)
Theorem step_geometries_one_per_step parameters legs leg_geometries :
  length legs = length leg_geometries →
  make_step_geometries parameters legs leg_geometries []
  = (λ groups, concat groups)
      <$> mapM (λ pair, mapM (step_geometry parameters pair.2) (steps pair.1))
            (zip legs leg_geometries)
  ∧ ∀ step_geometries,
      make_step_geometries parameters legs leg_geometries []
      = Some step_geometries →
      length step_geometries = sum_list ((length ∘ steps) <$> legs).
Proof.
  intros Hlen.
  assert (make_step_geometries parameters legs leg_geometries []
          = (λ groups, concat groups)
              <$> mapM (λ pair, mapM (step_geometry parameters pair.2)
                                  (steps pair.1))
                    (zip legs leg_geometries)) as Heq.
  { rewrite make_step_geometries_groups by lia. by destruct (mapM _ _). }
  split; [done|]. rewrite Heq. clear Heq.
  revert leg_geometries Hlen.
  induction legs as [|leg legs IH]; intros [|leg_geometry leg_geometries] Hlen
    step_geometries; simpl in *; try lia.
  - by intros [= <-].
  - destruct (mapM (step_geometry parameters leg_geometry) (steps leg))
      as [encoded|] eqn:Hencoded; [|done]. simpl.
    specialize (IH leg_geometries).
    destruct (mapM _ (zip legs leg_geometries)) as [groups|]; [|done].
    simpl in *. intros [= <-]. rewrite length_app.
    apply length_mapM in Hencoded. rewrite <- Hencoded.
    f_equal. apply IH; [lia|done].
Qed.

Lemma for_legs_facts parameters segment_end_coordinates
    unpacked_path_segments source_traversed_in_reverse
    target_traversed_in_reverse n idx legs leg_geometries legs'
    leg_geometries' :
  for_legs parameters segment_end_coordinates unpacked_path_segments
    source_traversed_in_reverse target_traversed_in_reverse n idx legs
    leg_geometries = Some (legs', leg_geometries') →
  length legs' = length legs + n
  ∧ length leg_geometries' = length leg_geometries + n
  ∧ (0 < n →
     idx + n ≤ length segment_end_coordinates
     ∧ idx + n ≤ length unpacked_path_segments
     ∧ idx + n ≤ length source_traversed_in_reverse
     ∧ idx + n ≤ length target_traversed_in_reverse).
Proof.
  revert idx legs leg_geometries.
  induction n as [|n IH]; intros idx legs leg_geometries Hrun; simpl in Hrun.
  - injection Hrun as <- <-. split; [lia|]. split; lia.
  - destruct (segment_end_coordinates !! idx) as [phantoms|] eqn:Hsec;
      [|done].
    destruct (unpacked_path_segments !! idx) as [path_data|] eqn:Hups;
      [|done].
    destruct (source_traversed_in_reverse !! idx) as [reversed_source|]
      eqn:Hstr; [|done].
    destruct (target_traversed_in_reverse !! idx) as [reversed_target|]
      eqn:Httr; [|done].
    simpl in Hrun.
    destruct (make_leg parameters phantoms path_data reversed_source
                reversed_target) as [[[leg leg_geometry] events]|]; [|done].
    simpl in Hrun. apply IH in Hrun as (Hlegs & Hgeos & Hbounds).
    rewrite length_app in Hlegs, Hgeos. simpl in Hlegs, Hgeos.
    apply lookup_lt_Some in Hsec, Hups, Hstr, Httr.
    split; [lia|]. split; [lia|]. intros _.
    destruct n as [|n]; [lia|]. destruct Hbounds as (? & ? & ? & ?); lia.
Qed.

Lemma make_step_geometries_length parameters legs leg_geometries acc
    step_geometries :
  length legs ≤ length leg_geometries →
  make_step_geometries parameters legs leg_geometries acc
  = Some step_geometries →
  length step_geometries = length acc + sum_list ((length ∘ steps) <$> legs).
Proof.
  revert leg_geometries acc.
  induction legs as [|leg legs IH]; intros [|leg_geometry leg_geometries] acc
    Hlen Hrun; simpl in *; try lia.
  - injection Hrun as <-. lia.
  - injection Hrun as <-. lia.
  - destruct (mapM (step_geometry parameters leg_geometry) (steps leg))
      as [encoded|] eqn:Hencoded; [|done]. simpl in Hrun.
    apply IH in Hrun; [|lia]. rewrite length_app in Hrun.
    apply length_mapM in Hencoded. rewrite Hrun, Hencoded.
    by rewrite Nat.add_assoc.
Qed.

(** A route that [MakeRoute] returns was made from one leg and one leg
    geometry for each entry of [segment_end_coordinates] and one geometry
    for each step of those legs; and [MakeRoute] returns nothing unless the
    three other vectors have an entry for each of these legs, and unless
    there is a leg at all when there is a path segment. *)
Theorem MakeRoute_shape parameters segment_end_coordinates
    unpacked_path_segments source_traversed_in_reverse
    target_traversed_in_reverse made :
  MakeRoute parameters segment_end_coordinates unpacked_path_segments
    source_traversed_in_reverse target_traversed_in_reverse = Some made →
  length segment_end_coordinates ≤ length unpacked_path_segments
  ∧ length segment_end_coordinates ≤ length source_traversed_in_reverse
  ∧ length segment_end_coordinates ≤ length target_traversed_in_reverse
  ∧ (segment_end_coordinates = [] → unpacked_path_segments = [])
  ∧ ∃ legs leg_geometries step_geometries,
      length legs = length segment_end_coordinates
      ∧ length leg_geometries = length segment_end_coordinates
      ∧ length step_geometries = sum_list ((length ∘ steps) <$> legs)
      ∧ made
        = makeRoute (assembleRoute legs)
            (makeRouteLegs legs step_geometries
               (make_annotations parameters leg_geometries))
            (make_overview parameters leg_geometries) GetWeightName.
Proof.
  unfold MakeRoute. intros Hmade.
  destruct (diagnostic_accesses _ _ _ _) as [[]|] eqn:Hdiag; [|done].
  simpl in Hmade.
  destruct (for_legs _ _ _ _ _ _ _ _ _) as [[legs leg_geometries]|] eqn:Hlegs;
    [|done].
  simpl in Hmade.
  destruct (make_step_geometries _ _ _ _) as [step_geometries|] eqn:Hgeos;
    [|done].
  simpl in Hmade. injection Hmade as <-.
  apply for_legs_facts in Hlegs as (Hlen1 & Hlen2 & Hbounds).
  simpl in Hlen1, Hlen2.
  apply make_step_geometries_length in Hgeos; [|lia]. simpl in Hgeos.
  assert (segment_end_coordinates = [] → unpacked_path_segments = [])
    as Hnone.
  { intros ->. unfold diagnostic_accesses in Hdiag.
    destruct unpacked_path_segments; [done|].
    by destruct (source_traversed_in_reverse !! 0). }
  destruct segment_end_coordinates as [|phantoms rest].
  - simpl. repeat split; try lia; [done|]. by exists legs, leg_geometries,
      step_geometries.
  - destruct Hbounds as (_ & ? & ? & ?); [simpl; lia|].
    repeat split; try done. by exists legs, leg_geometries, step_geometries.
Qed.

Lemma make_leg_in_range parameters phantoms path_data reversed_source
    reversed_target :
  ranges_ok
    (steps (guided_leg parameters phantoms path_data reversed_source
              reversed_target).1)
    (guided_leg parameters phantoms path_data reversed_source
       reversed_target).2 →
  ∃ leg leg_geometry events,
    make_leg parameters phantoms path_data reversed_source reversed_target
    = Some (leg, leg_geometry, events)
    ∧ ranges_ok (steps leg) leg_geometry.
Proof.
  unfold make_leg, guided_leg.
  destruct (RouteParameters.steps parameters); [|by eexists _, _, _].
  destruct (post_process _ _ _ _) as [leg1 geometry1]. simpl. intros Hok.
  destruct (apply_manual_overrides_defined phantoms reversed_target
              (steps leg1) geometry1 Hok) as [st Hst].
  rewrite Hst. simpl. eexists _, _, _. split; [done|]. simpl.
  apply apply_manual_overrides_outcome in Hst as [-> Hcases].
  destruct Hcases as [(_ & -> & _)|(_ & _ & _ & o & t & _ & _ & _ & ->)];
    [done|by apply ranges_ok_apply_override].
Qed.

Lemma for_legs_in_range parameters segment_end_coordinates
    unpacked_path_segments source_traversed_in_reverse
    target_traversed_in_reverse n idx legs leg_geometries :
  route_in_range parameters segment_end_coordinates unpacked_path_segments
    source_traversed_in_reverse target_traversed_in_reverse →
  idx + n ≤ length segment_end_coordinates →
  Forall2 (λ leg leg_geometry, ranges_ok (steps leg) leg_geometry) legs
    leg_geometries →
  ∃ legs' leg_geometries',
    for_legs parameters segment_end_coordinates unpacked_path_segments
      source_traversed_in_reverse target_traversed_in_reverse n idx legs
      leg_geometries = Some (legs', leg_geometries')
    ∧ Forall2 (λ leg leg_geometry, ranges_ok (steps leg) leg_geometry) legs'
        leg_geometries'.
Proof.
  intros (Hups & Hstr & Httr & Hok). revert idx legs leg_geometries.
  induction n as [|n IH]; intros idx legs leg_geometries Hidx Hacc; simpl.
  - by eexists _, _.
  - destruct (lookup_lt_is_Some_2 segment_end_coordinates idx)
      as [phantoms Hphantoms]; [lia|].
    destruct (lookup_lt_is_Some_2 unpacked_path_segments idx)
      as [path_data Hpath]; [lia|].
    destruct (lookup_lt_is_Some_2 source_traversed_in_reverse idx)
      as [reversed_source Hsource]; [lia|].
    destruct (lookup_lt_is_Some_2 target_traversed_in_reverse idx)
      as [reversed_target Htarget]; [lia|].
    rewrite Hphantoms, Hpath, Hsource, Htarget. simpl.
    destruct (make_leg_in_range parameters phantoms path_data reversed_source
                reversed_target) as (leg & leg_geometry & events & -> & Hleg);
      [by eapply Hok|].
    simpl. apply IH; [lia|]. apply Forall2_app; [done|].
    by apply Forall2_cons.
Qed.

Lemma make_step_geometries_in_range parameters legs leg_geometries acc :
  Forall2 (λ leg leg_geometry, ranges_ok (steps leg) leg_geometry) legs
    leg_geometries →
  is_Some (make_step_geometries parameters legs leg_geometries acc).
Proof.
  intros Hok. revert acc.
  induction Hok as [|leg leg_geometry legs leg_geometries Hleg Hok IH];
    intros acc; simpl; [by eexists|].
  assert (is_Some (mapM (step_geometry parameters leg_geometry) (steps leg)))
    as [encoded ->].
  { apply mapM_is_Some_2, Forall_forall.
    intros step [k Hstep]%list_elem_of_lookup. simpl.
    destruct (Hleg k step Hstep) as [Hbegin Hend]. unfold step_geometry.
    destruct (slice_Some (locations leg_geometry) _ _ Hbegin Hend)
      as [range ->].
    by eexists. }
  simpl. apply IH.
Qed.

(** [MakeRoute] returns a route whenever the four vectors of the raw route
    have one entry for each leg and the guidance collaborators leave every
    step with a geometry that is a range of the locations of its leg: no
    vector is then read out of range, in the override resolver or in the
    encoding of the step geometries. *)
Theorem MakeRoute_in_range parameters segment_end_coordinates
    unpacked_path_segments source_traversed_in_reverse
    target_traversed_in_reverse :
  route_in_range parameters segment_end_coordinates unpacked_path_segments
    source_traversed_in_reverse target_traversed_in_reverse →
  is_Some (MakeRoute parameters segment_end_coordinates
             unpacked_path_segments source_traversed_in_reverse
             target_traversed_in_reverse).
Proof.
  intros Hroute. pose proof Hroute as (Hups & Hstr & Httr & _).
  unfold MakeRoute.
  assert (diagnostic_accesses segment_end_coordinates unpacked_path_segments
            source_traversed_in_reverse target_traversed_in_reverse
          = Some ()) as ->.
  { unfold diagnostic_accesses.
    destruct unpacked_path_segments as [|path_data rest]; [done|].
    destruct segment_end_coordinates; [done|].
    destruct source_traversed_in_reverse; [done|].
    by destruct target_traversed_in_reverse. }
  simpl.
  destruct (for_legs_in_range parameters segment_end_coordinates
              unpacked_path_segments source_traversed_in_reverse
              target_traversed_in_reverse (length segment_end_coordinates) 0
              [] [] Hroute) as (legs & leg_geometries & -> & Hok);
    [lia|done|].
  simpl.
  destruct (make_step_geometries_in_range parameters legs leg_geometries []
              Hok) as [step_geometries ->].
  by eexists.
Qed.

Lemma requested_annotations_explicit parameters flag :
  RouteParameters.annotations_type parameters
  ≠ RouteParameters.AnnotationsType.None →
  requested_annotations (with_annotations parameters flag)
  = requested_annotations parameters.
Proof.
  intros Htype. unfold requested_annotations. simpl.
  rewrite bool_decide_eq_false_2 by done. by rewrite !andb_false_r.
Qed.

Lemma for_legs_with_annotations parameters flag segment_end_coordinates
    unpacked_path_segments source_traversed_in_reverse
    target_traversed_in_reverse n idx legs leg_geometries :
  for_legs (with_annotations parameters flag) segment_end_coordinates
    unpacked_path_segments source_traversed_in_reverse
    target_traversed_in_reverse n idx legs leg_geometries
  = for_legs parameters segment_end_coordinates unpacked_path_segments
      source_traversed_in_reverse target_traversed_in_reverse n idx legs
      leg_geometries.
Proof.
  revert idx legs leg_geometries.
  induction n as [|n IH]; intros idx legs leg_geometries; simpl; [done|].
  destruct (segment_end_coordinates !! idx) as [phantoms|]; [|done].
  destruct (unpacked_path_segments !! idx) as [path_data|]; [|done].
  destruct (source_traversed_in_reverse !! idx) as [reversed_source|];
    [|done].
  destruct (target_traversed_in_reverse !! idx) as [reversed_target|];
    [|done].
  simpl.
  change (make_leg (with_annotations parameters flag) phantoms path_data
            reversed_source reversed_target)
    with (make_leg parameters phantoms path_data reversed_source
            reversed_target).
  destruct (make_leg _ _ _ _ _) as [[[leg leg_geometry] events]|]; [|done].
  simpl. apply IH.
Qed.

Lemma make_step_geometries_with_annotations parameters flag legs
    leg_geometries acc :
  make_step_geometries (with_annotations parameters flag) legs leg_geometries
    acc
  = make_step_geometries parameters legs leg_geometries acc.
Proof. reflexivity. Qed.

(** When [annotations_type] has a flag, the legacy flag [annotations] has no
    effect: the route and the response are the same whether it is set or
    not. *)
Theorem legacy_flag_without_effect parameters flag :
  RouteParameters.annotations_type parameters
  ≠ RouteParameters.AnnotationsType.None →
  (∀ segment_end_coordinates unpacked_path_segments
     source_traversed_in_reverse target_traversed_in_reverse,
     MakeRoute (with_annotations parameters flag) segment_end_coordinates
       unpacked_path_segments source_traversed_in_reverse
       target_traversed_in_reverse
     = MakeRoute parameters segment_end_coordinates unpacked_path_segments
         source_traversed_in_reverse target_traversed_in_reverse)
  ∧ ∀ raw_routes response,
      MakeResponse (with_annotations parameters flag) raw_routes response
      = MakeResponse parameters raw_routes response.
Proof.
  intros Htype.
  assert (∀ segment_end_coordinates unpacked_path_segments
            source_traversed_in_reverse target_traversed_in_reverse,
            MakeRoute (with_annotations parameters flag)
              segment_end_coordinates unpacked_path_segments
              source_traversed_in_reverse target_traversed_in_reverse
            = MakeRoute parameters segment_end_coordinates
                unpacked_path_segments source_traversed_in_reverse
                target_traversed_in_reverse) as Hroute.
  { intros. unfold MakeRoute.
    destruct (diagnostic_accesses _ _ _ _) as [[]|]; [|done]. simpl.
    rewrite for_legs_with_annotations.
    destruct (for_legs _ _ _ _ _ _ _ _ _) as [[legs leg_geometries]|];
      [|done].
    simpl. rewrite make_step_geometries_with_annotations.
    destruct (make_step_geometries _ _ _ _) as [step_geometries|]; [|done].
    simpl. do 2 f_equal.
    unfold make_annotations, make_annotation.
    by rewrite requested_annotations_explicit. }
  split; [done|]. intros raw_routes response. unfold MakeResponse.
  assert (∀ raw jsRoutes,
            for_routes (with_annotations parameters flag) raw jsRoutes
            = for_routes parameters raw jsRoutes) as ->; [|done].
  induction raw as [|route raw IH]; intros jsRoutes; simpl; [done|].
  destruct (is_valid route); simpl; [|done].
  rewrite Hroute. destruct (MakeRoute _ _ _ _ _); [|done]. simpl. apply IH.
Qed.

End RouteCoverage.

(** ** What the verdicts mean *)

Section VerdictCoverage.
Context `{Double, Foreign}.
Context `{!DataFacade}.
Implicit Types (steps : list RouteStep) (geometry : LegGeometry).
Implicit Types (o : ManeuverOverride) (st : Resolver).
Implicit Types (phantoms : PhantomNodes) (reversed_target : bool).

Lemma via_search_none steps geometry o c n :
  via_search steps geometry o c n = Some None
  ↔ ∀ c', c ≤ c' < c + n →
      ∃ s, steps !! c' = Some s ∧ lacks_via geometry o s.
Proof.
  revert c. induction n as [|n IH]; intros c.
  - split; [intros _ c'; lia|done].
  - split.
    + intros Hsearch.
      destruct (steps !! c) as [step|] eqn:Hstep;
        [|by simpl in Hsearch; rewrite Hstep in Hsearch].
      destruct (slice (locations geometry) (geometry_begin step)
                  (geometry_end step)) as [range|] eqn:Hrange;
        [|by simpl in Hsearch; rewrite Hstep in Hsearch; simpl in Hsearch;
             rewrite Hrange in Hsearch].
      erewrite via_search_step in Hsearch by done.
      destruct (decide (GetCoordinateOfNode (via_node_id o) ∈ range))
        as [|Hnotin]; [done|].
      intros c' Hc'. destruct (decide (c' = c)) as [->|Hne].
      * exists step. split; [done|]. by exists range.
      * apply (proj1 (IH (S c)) Hsearch). lia.
    + intros Hall.
      destruct (Hall c) as (step & Hstep & range & Hrange & Hnotin); [lia|].
      erewrite via_search_step by done. rewrite decide_False by done.
      apply IH. intros c' Hc'. apply Hall. lia.
Qed.

(** The verdict on an override at a step says what the window holds.  It is
    a via match at step [t] exactly when the override passed the check of
    its [to_node] and [t] is the first step of the window whose geometry
    holds the coordinate of the via node; it is no via match exactly when
    the override passed that check and the geometry of no step of the
    window holds that coordinate. *)
Theorem verdict_meaning st phantoms reversed_target i o t :
  (check_override st phantoms reversed_target i o = Some (ViaMatch t)
   ↔ to_node_accepted (leg_steps st) phantoms reversed_target i o = true
     ∧ i ≤ t < max_steps_fwd (leg_steps st) i
     ∧ (∀ c, i ≤ c < t →
          ∃ s, leg_steps st !! c = Some s ∧ lacks_via (leg_geometry st) o s)
     ∧ ∃ step, leg_steps st !! t = Some step
               ∧ holds_via (leg_geometry st) o step)
  ∧ (check_override st phantoms reversed_target i o = Some NoViaMatch
     ↔ to_node_accepted (leg_steps st) phantoms reversed_target i o = true
       ∧ ∀ c, i ≤ c < max_steps_fwd (leg_steps st) i →
           ∃ s, leg_steps st !! c = Some s
                ∧ lacks_via (leg_geometry st) o s).
Proof.
  unfold check_override, max_steps_fwd.
  destruct (to_node_accepted _ _ _ _ _).
  - split.
    + split.
      * destruct (via_search _ _ _ _ _) as [[t'|]|] eqn:Hsearch; [|done..].
        intros [= ->]. split; [done|]. by apply via_search_inv.
      * intros (_ & Ht & Hbefore & step & Hstep & Hvia).
        by erewrite via_search_found.
    + rewrite <- via_search_none. split.
      * by destruct (via_search _ _ _ _ _) as [[t'|]|].
      * by intros [_ ->].
  - split; (split; [done|by intros [? _]]).
Qed.

End VerdictCoverage.

(** ** The further statements on the small network *)

Module CoverageChecks.
Import Example.

Lemma MakeResponse_result_iff_witness :
  is_Some (MakeResponse (request true RouteParameters.AnnotationsType.None)
             two_routes ∅).
Proof.
  apply MakeResponse_result_iff. split; [discriminate|].
  intros route Hin Hvalid.
  apply elem_of_cons in Hin as [->|Hin]; [discriminate Hvalid|].
  apply list_elem_of_singleton in Hin as ->.
  eexists. vm_compute. reflexivity.
Defined.

Lemma MakeResponse_other_keys_witness :
  ∃ response',
    MakeResponse (request true RouteParameters.AnnotationsType.None)
      two_routes {[ "id" := json.String "7" ]} = Some response'
    ∧ response' !! "id" = Some (json.String "7").
Proof.
  destruct (MakeResponse (request true RouteParameters.AnnotationsType.None)
              two_routes {[ "id" := json.String "7" ]})
    as [response'|] eqn:Hmade.
  - exists response'. split; [reflexivity|].
    destruct (MakeResponse_other_keys _ _ _ _ Hmade) as [Hkept _].
    rewrite (Hkept "id"); [reflexivity|discriminate..].
  - vm_compute in Hmade. discriminate Hmade.
Defined.


Lemma annotation_arrays_aligned_witness :
  ∃ entries,
    make_annotation (request false RouteParameters.AnnotationsType.Duration)
      (geometry_of 3) !! "duration" = Some (json.Array entries)
    ∧ length entries = 3.
Proof.
  assert (make_annotation
            (request false RouteParameters.AnnotationsType.Duration)
            (geometry_of 3) !! "duration"
          = Some (GetAnnotations (geometry_of 3)
                    (λ anno, json.Number (duration anno)))) as Hlookup
    by (vm_compute; reflexivity).
  destruct (annotation_arrays_aligned _ _ _ _ Hlookup)
    as (entries & Hvalue & Hlen).
  exists entries. split; [by rewrite Hlookup, Hvalue|exact Hlen].
Defined.

Lemma annotation_keys_by_flag_witness :
  is_Some (make_annotation (request true RouteParameters.AnnotationsType.None)
             (geometry_of 3) !! "duration")
  ∧ make_annotation (request true RouteParameters.AnnotationsType.None)
      (geometry_of 3) !! "speed" = None.
Proof.
  destruct (annotation_keys_by_flag
              (request true RouteParameters.AnnotationsType.None)
              (geometry_of 3)) as (Hspeed & Hduration & _).
  split; [apply Hduration; reflexivity|].
  destruct (make_annotation _ _ !! "speed") as [value|] eqn:Hvalue;
    [|reflexivity].
  assert (is_Some (Some value)) as Hsome by (by eexists).
  apply Hspeed in Hsome. discriminate Hsome.
Defined.

Lemma annotations_one_per_leg_witness :
  length (make_annotations (request true RouteParameters.AnnotationsType.None)
            [geometry_of 3; geometry_of 2]) = 2.
Proof.
  destruct (annotations_one_per_leg
              (request true RouteParameters.AnnotationsType.None)
              [geometry_of 3; geometry_of 2]) as (_ & _ & Hsome).
  apply Hsome. intros Heq. vm_compute in Heq. discriminate Heq.
Defined.

Lemma no_overrides_no_change_witness :
  apply_manual_overrides phantoms false (drop 1 (steps_of 3)) (geometry_of 3)
  = Some {| leg_steps := drop 1 (steps_of 3); leg_geometry := geometry_of 3;
            done := false; trace := [StepVisited 0; StepVisited 1] |}.
Proof.
  apply (no_overrides_no_change phantoms false (drop 1 (steps_of 3))
           (geometry_of 3)).
  intros step Hin.
  apply elem_of_cons in Hin as [->|Hin]; [reflexivity|].
  apply list_elem_of_singleton in Hin as ->. reflexivity.
Defined.

Lemma first_match_is_applied_witness :
  ∃ st',
    apply_manual_overrides phantoms false (steps_of 7) (geometry_of 7)
    = Some st'
    ∧ done st' = true
    ∧ leg_steps st' = apply_override to_12 1 (steps_of 7).
Proof.
  destruct (first_match_is_applied phantoms false (steps_of 7) (geometry_of 7)
              0 (step_at 0) [to_15] to_12 [] 1)
    as (st' & Hrun & Hdone & Hsteps & _).
  - reflexivity.
  - reflexivity.
  - intros i' step' o' Hi'. lia.
  - intros o' Ho'. apply list_elem_of_singleton in Ho' as ->.
    left. reflexivity.
  - reflexivity.
  - exists st'. split; [exact Hrun|]. split; [exact Hdone|exact Hsteps].
Defined.

Lemma applied_override_origin_witness :
  apply_manual_overrides phantoms false (steps_of 7) (geometry_of 7)
  = Some after_to_12
  ∧ leg_steps after_to_12 !! 0 = steps_of 7 !! 0.
Proof.
  assert (apply_manual_overrides phantoms false (steps_of 7) (geometry_of 7)
          = Some after_to_12) as Hrun by reflexivity.
  split; [exact Hrun|].
  destruct (applied_override_origin phantoms false (steps_of 7)
              (geometry_of 7) after_to_12 Hrun) as [_ Hdone].
  destruct (Hdone eq_refl)
    as (i & step & pre & o & post & t & _ & _ & _ & _ & _ & _ & _ & Hfirst).
  exact Hfirst.
Defined.

Lemma overrides_keep_step_geometries_witness :
  apply_manual_overrides phantoms false (steps_of 7) (geometry_of 7)
  = Some after_to_12
  ∧ from_id <$> leg_steps after_to_12 = from_id <$> steps_of 7.
Proof.
  assert (apply_manual_overrides phantoms false (steps_of 7) (geometry_of 7)
          = Some after_to_12) as Hrun by reflexivity.
  split; [exact Hrun|].
  destruct (overrides_keep_step_geometries
              (request true RouteParameters.AnnotationsType.None) phantoms
              false (steps_of 7) (geometry_of 7) after_to_12 Hrun)
    as [Hfrom _].
  exact Hfrom.
Defined.

Lemma step_geometries_one_per_step_witness :
  ∃ step_geometries,
    make_step_geometries (request true RouteParameters.AnnotationsType.None)
      [{| steps := steps_of 3; leg_data := () |};
       {| steps := steps_of 2; leg_data := () |}]
      [geometry_of 3; geometry_of 2] [] = Some step_geometries
    ∧ length step_geometries = 5.
Proof.
  destruct (make_step_geometries
              (request true RouteParameters.AnnotationsType.None)
              [{| steps := steps_of 3; leg_data := () |};
               {| steps := steps_of 2; leg_data := () |}]
              [geometry_of 3; geometry_of 2] []) as [step_geometries|]
    eqn:Hrun.
  - exists step_geometries. split; [reflexivity|].
    destruct (step_geometries_one_per_step
                (request true RouteParameters.AnnotationsType.None)
                [{| steps := steps_of 3; leg_data := () |};
                 {| steps := steps_of 2; leg_data := () |}]
                [geometry_of 3; geometry_of 2] eq_refl) as [_ Hcount].
    exact (Hcount step_geometries Hrun).
  - vm_compute in Hrun. discriminate Hrun.
Defined.

Lemma MakeRoute_shape_witness :
  ∃ made (legs : list RouteLeg),
    MakeRoute (request true RouteParameters.AnnotationsType.None) [phantoms]
      [[10%N; 11%N; 12%N]] [false] [false] = Some made
    ∧ length legs = 1.
Proof.
  destruct (MakeRoute (request true RouteParameters.AnnotationsType.None)
              [phantoms] [[10%N; 11%N; 12%N]] [false] [false])
    as [made|] eqn:Hmade.
  - destruct (MakeRoute_shape _ _ _ _ _ _ Hmade)
      as (_ & _ & _ & _ & legs & _ & _ & Hlegs & _).
    exists made, legs. split; [reflexivity|exact Hlegs].
  - vm_compute in Hmade. discriminate Hmade.
Defined.

Lemma MakeRoute_in_range_witness :
  is_Some (MakeRoute (request true RouteParameters.AnnotationsType.None)
             [phantoms] [[10%N; 11%N; 12%N]] [false] [false]).
Proof.
  apply MakeRoute_in_range.
  split; [reflexivity|]. split; [reflexivity|]. split; [reflexivity|].
  intros idx phantoms' path_data reversed_source reversed_target Hsec Hups
    Hstr Httr.
  destruct idx as [|idx]; [|discriminate Hsec].
  injection Hsec as <-. injection Hups as <-. injection Hstr as <-.
  injection Httr as <-.
  intros k step Hstep.
  do 3 (destruct k as [|k]; [injection Hstep as <-; simpl; lia|]).
  discriminate Hstep.
Defined.

Lemma legacy_flag_without_effect_witness :
  MakeRoute
    (with_annotations (request true RouteParameters.AnnotationsType.Duration)
       false)
    [phantoms] [[10%N; 11%N]] [false] [false]
  = MakeRoute (request true RouteParameters.AnnotationsType.Duration)
      [phantoms] [[10%N; 11%N]] [false] [false].
Proof.
  destruct (legacy_flag_without_effect
              (request true RouteParameters.AnnotationsType.Duration) false)
    as [Hroute _].
  - discriminate.
  - apply Hroute.
Defined.

Lemma verdict_meaning_witness :
  check_override (start 7) phantoms false 0 to_12 = Some (ViaMatch 1)
  ∧ ∃ step, leg_steps (start 7) !! 1 = Some step
            ∧ holds_via (leg_geometry (start 7)) to_12 step.
Proof.
  assert (check_override (start 7) phantoms false 0 to_12
          = Some (ViaMatch 1)) as Hcheck by reflexivity.
  split; [exact Hcheck|].
  destruct (verdict_meaning (start 7) phantoms false 0 to_12 1)
    as [Hmatch _].
  destruct (proj1 Hmatch Hcheck) as (_ & _ & _ & Hholds).
  exact Hholds.
Defined.

End CoverageChecks.
